(** * AQTLib [aqtlib/pg.py]: a shallow embedding of the [PG] container

    [PG] couples SQLAlchemy Core (schema DDL through a synchronous engine,
    literal rendering of statements) with an asyncpg connection pool.  The
    module is embedded as functions over an explicit world: the fields of the
    instance, the pool objects it can reach, the records handed to the logger
    and the calls made to the two libraries.

    The libraries themselves (SQLAlchemy, asyncpg) and the database behind
    them are not part of the repository; what they answer is left to an
    environment [Env], over which every statement below is universally
    quantified.  The coroutines are run one after the other, an [await]
    being sequencing; [overlapped] is the one schedule in which a second
    query operation starts while the first awaits its pool. *)

From Stdlib Require Import ZArith Ascii String List Lia DecimalString.
From stdpp Require Import base list.
Import ListNotations.
Open Scope string_scope.
Open Scope list_scope.

(** ** Python values, exceptions, results *)

(** The exceptions that can surface from the module.  [External] is anything
    raised inside SQLAlchemy, asyncpg or the database, kept opaque.
    [InterfaceError] is what asyncpg raises on a pool that was closed.
    [Suspended] stands for an [acquire] that waits for a connection nobody
    will give back (one coroutine at a time is run here).
    [NotInitializedError] belongs to the error taxonomy of the design
    document; no line of the source raises it. *)
Inductive exn : Type :=
| AttributeError
| InterfaceError
| Suspended
| External (what : string)
| NotInitializedError.

Inductive result (A : Type) : Type :=
| Ok (a : A)
| Raise (e : exn).
Arguments Ok {A} a.
Arguments Raise {A} e.

(** The values that reach the code as bind values or driver arguments, told
    apart by what the code asks of them: the two [isinstance] tests and
    [str()].  [PyInt] and [PyStr] are plain integers and strings, [PyBool]
    a boolean (Python makes [bool] a subclass of [int]).  [PyIntSub z shown]
    is an instance of any other subclass of [int], with what its [__str__]
    does.  [PyObj text] is an object that is neither an [int] nor a [str]
    and whose [str()] is [text] (a datetime, a float, [None], ...);
    [PyBroken e] is such an object whose [__str__] raises [e]. *)
Inductive pyval : Type :=
| PyInt (z : Z)
| PyBool (b : bool)
| PyIntSub (z : Z) (shown : result string)
| PyStr (s : string)
| PyObj (text : string)
| PyBroken (e : exn).

(** [isinstance(value, int)]: true of integers, of booleans and of the
    instances of every other subclass of [int]. *)
Definition isinstance_int (value : pyval) : bool :=
  match value with
  | PyInt _ | PyBool _ | PyIntSub _ _ => true
  | PyStr _ | PyObj _ | PyBroken _ => false
  end.

(** [isinstance(value, str)]. *)
Definition isinstance_str (value : pyval) : bool :=
  match value with
  | PyStr _ => true
  | _ => false
  end.

(** The decimal digits of an integer, sign left out. *)
Definition int_digits (z : Z) : nat :=
  String.length (NilZero.string_of_int (Z.to_int (Z.abs z))).

(** [str(value)].  [int_max_str_digits] is the interpreter's limit on the
    conversion of an integer to text ([sys.get_int_max_str_digits()]; [0]
    is no limit, as in the interpreters that have none): past it [str]
    raises [ValueError]. *)
Definition py_str (int_max_str_digits : nat) (value : pyval) : result string :=
  match value with
  | PyInt z =>
      if negb (Nat.eqb int_max_str_digits 0)
         && Nat.ltb int_max_str_digits (int_digits z)
      then Raise (External "ValueError")
      else Ok (NilZero.string_of_int (Z.to_int z))
  | PyBool true => Ok "True"
  | PyBool false => Ok "False"
  | PyIntSub _ shown => shown
  | PyStr s => Ok s
  | PyObj text => Ok text
  | PyBroken e => Raise e
  end.

(** ** The literal type [StringLiteral] and its dialect *)

(** What the dialect's stock escaper may hand back. *)
Inductive escaped : Type :=
| Text (s : string)
| Bytes (b : list Byte.byte).

(** The part of a dialect object the module reads or sets. *)
Record Dialect : Type := mkDialect {
  paramstyle : string;
  implicit_returning : bool;
  encoding : string
}.

Module StringLiteral.
Section Processor.

(** [String.literal_processor(dialect)] of SQLAlchemy, and [bytes.decode]. *)
Variable String_literal_processor : Dialect -> string -> escaped.
Variable decode : list Byte.byte -> string -> result string.
Variable int_max_str_digits : nat.

(** [StringLiteral.literal_processor(dialect)], applied to a value: the inner
    function [process].  The stock escaper works on a [str]; the last branch
    is what it would do on anything else, and is not reached. *)
Definition literal_processor (dialect : Dialect) (value : pyval) : result string :=
  let super_processor := String_literal_processor dialect in
  if isinstance_int value then py_str int_max_str_digits value
  else
    let converted :=
      if isinstance_str value then Ok value
      else match py_str int_max_str_digits value with
           | Ok text => Ok (PyStr text)
           | Raise e => Raise e
           end in
    match converted with
    | Raise e => Raise e
    | Ok (PyStr text) =>
        match super_processor text with
        | Bytes b => decode b (encoding dialect)
        | Text s => Ok s
        end
    | Ok _ => Raise AttributeError
    end.

End Processor.
End StringLiteral.

(** ** The environment: the two libraries and the database *)

Inductive method : Type := Fetchval | Fetch | Fetchrow | Execute.

Record Env : Type := mkEnv {
  (** state of the database server *)
  DB : Type;
  (** what a driver call returns (a value, a row, rows, a status) *)
  Val : Type;
  (** a compilable SQLAlchemy construct *)
  Stmt : Type;
  MetaData : Type;
  Engine : Type;
  Time : Type;
  default_encoding : string;
  (** [stmt.compile(dialect=..., compile_kwargs={'literal_binds': b}).string] *)
  sa_compile : Stmt -> Dialect -> bool -> result string;
  (** [sqlalchemy.create_engine(dsn)] *)
  sa_create_engine : option string -> result Engine;
  (** [metadata.create_all(engine)], [metadata.drop_all(engine)] *)
  sa_create_all : MetaData -> Engine -> DB -> result unit * DB;
  sa_drop_all : MetaData -> Engine -> DB -> result unit * DB;
  (** [asyncpg.create_pool(dsn)]: the number of connections of the new pool *)
  pg_create_pool : option string -> DB -> result nat * DB;
  (** [conn.fetchval / fetch / fetchrow / execute (query, *args, ...)] *)
  pg_call : method -> string -> list pyval -> option Z -> option Time ->
            DB -> result Val * DB
}.

(** ** The dialect's types and the compilation of a statement

    [LiteralDialect.colspecs] is in the module; the compiler that reads it
    is SQLAlchemy's.  A statement is taken here as SQLAlchemy compiles it:
    text and bind parameters, each parameter with its column type and its
    value. *)

Module sqltypes.

(** A column type, by the entry of [colspecs] its class falls under
    (SQLAlchemy looks the class and its bases up): [String], [DateTime], or
    a type under neither. *)
Inductive sqltype : Type :=
| String
| DateTime
| Other (name : string).

Definition eqb (a b : sqltype) : bool :=
  match a, b with
  | String, String => true
  | DateTime, DateTime => true
  | Other x, Other y => String.eqb x y
  | _, _ => false
  end.


End sqltypes.


Module LiteralDialect.



End LiteralDialect.


Section Compiler.

Variable String_literal_processor : Dialect -> string -> escaped.
Variable decode : list Byte.byte -> string -> result string.
Variable int_max_str_digits : nat.
(** The literal processors SQLAlchemy has for the types [colspecs] leaves
    alone, by the name of the type. *)
Variable stock_literal_processor : string -> Dialect -> pyval -> result string.




(** The text form the escaper is given: a string as it is, anything else
    through [str()]. *)
Definition text_form (value : pyval) : result string :=
  match value with
  | PyStr s => Ok s
  | _ => py_str int_max_str_digits value
  end.




End Compiler.

(** ** The world *)

Inductive level : Type := DEBUG | WARNING.

(** A pool object of asyncpg: the connection string it was built from, its
    connections, how many of them are not checked out, and whether [close]
    ran on it. *)
Record Pool : Type := mkPool {
  pool_dsn : option string;
  pool_size : nat;
  pool_free : nat;
  pool_closed : bool
}.

Declare Scope pg_scope.
Delimit Scope pg_scope with pg.

Section Model.
Context {E : Env}.

(** The argument [query] of the four query operations: raw text, a
    [sqlalchemy.orm.Query] (which carries its [statement]) or any other
    compilable construct. *)
Inductive query : Type :=
| QText (s : string)
| QOrm (statement : Stmt E)
| QExpr (clause : Stmt E).

(** Calls that leave the module. *)
Inductive event : Type :=
| EvCreateEngine (dsn : option string)
| EvCreateAll (md : MetaData E) (e : Engine E)
| EvDropAll (md : MetaData E) (e : Engine E)
| EvCreatePool (dsn : option string)
| EvAcquire (p : nat)
| EvRelease (p : nat)
| EvPoolClose (p : nat)
| EvCall (m : method) (p : nat) (text : string) (args : list pyval)
         (column : option Z) (timeout : option (Time E)).

(** The instance attributes set by [PG.__init__]; [_pool] is a reference
    into the pools of the world. *)
Record PG : Type := mkPG {
  _dsn : option string;
  _metadata : option (MetaData E);
  _engine : option (Engine E);
  _pool : option nat
}.

Record World : Type := mkWorld {
  self : PG;
  pools : list Pool;
  db : DB E;
  log : list (level * string);
  trace : list event
}.

Definition set_self (f : PG -> PG) (w : World) : World :=
  mkWorld (f (self w)) (pools w) (db w) (log w) (trace w).
Definition set_pools (f : list Pool -> list Pool) (w : World) : World :=
  mkWorld (self w) (f (pools w)) (db w) (log w) (trace w).
Definition set_db (d : DB E) (w : World) : World :=
  mkWorld (self w) (pools w) d (log w) (trace w).
Definition add_log (r : level * string) (w : World) : World :=
  mkWorld (self w) (pools w) (db w) (log w ++ [r]) (trace w).
Definition add_event (ev : event) (w : World) : World :=
  mkWorld (self w) (pools w) (db w) (log w) (trace w ++ [ev]).

(** ** Computations: world passing, with exceptions that keep the world *)

Definition M (A : Type) : Type := World -> result A * World.

Definition ret {A} (a : A) : M A := fun w => (Ok a, w).
Definition throw {A} (e : exn) : M A := fun w => (Raise e, w).
Definition bind {A B} (m : M A) (k : A -> M B) : M B :=
  fun w =>
    match m w with
    | (Ok a, w1) => k a w1
    | (Raise e, w1) => (Raise e, w1)
    end.

(** [try: m finally: cleanup]. *)
Definition finally {A} (m : M A) (cleanup : M unit) : M A :=
  fun w =>
    let (r, w1) := m w in
    match cleanup w1 with
    | (Ok _, w2) => (r, w2)
    | (Raise e, w2) => (Raise e, w2)
    end.

Local Notation "'let*' x ':=' m 'in' k" := (bind m (fun x => k))
  (at level 10, x name, m at level 100, k at level 200) : pg_scope.
Local Open Scope pg_scope.

(** [async with cm as r: body], for a context manager that does not swallow
    exceptions: [__aexit__] runs on every way out of the body. *)
Definition async_with {R A} (aenter : M R) (aexit : R -> M unit)
  (body : R -> M A) : M A :=
  let* r := aenter in finally (body r) (aexit r).

Definition get_self : M PG := fun w => (Ok (self w), w).
Definition modify_self (f : PG -> PG) : M unit :=
  fun w => (Ok tt, set_self f w).
Definition emit (ev : event) : M unit := fun w => (Ok tt, add_event ev w).

(** [self._logger.debug(msg)] and [self._logger.warning(msg)]. *)
Definition logger (l : level) (msg : string) : M unit :=
  fun w => (Ok tt, add_log (l, msg) w).

(** ** The library side: SQLAlchemy engine and DDL, asyncpg pool *)

(** [sqlalchemy.create_engine(dsn)]. *)
Definition create_engine (dsn : option string) : M (Engine E) :=
  fun w => (sa_create_engine E dsn, add_event (EvCreateEngine dsn) w).

(** [metadata.create_all(engine)]. *)
Definition create_all (md : MetaData E) (e : Engine E) : M unit :=
  fun w =>
    let w := add_event (EvCreateAll md e) w in
    let (r, d) := sa_create_all E md e (db w) in (r, set_db d w).

(** [metadata.drop_all(engine)]. *)
Definition drop_all (md : MetaData E) (e : Engine E) : M unit :=
  fun w =>
    let w := add_event (EvDropAll md e) w in
    let (r, d) := sa_drop_all E md e (db w) in (r, set_db d w).

(** [asyncpg.create_pool(dsn)]: a new pool object, all of its connections
    free; the reference to it is returned. *)
Definition create_pool (dsn : option string) : M nat :=
  fun w =>
    let w := add_event (EvCreatePool dsn) w in
    match pg_create_pool E dsn (db w) with
    | (Ok n, d) =>
        (Ok (length (pools w)),
         set_pools (fun ps => ps ++ [mkPool dsn n n false]) (set_db d w))
    | (Raise e, d) => (Raise e, set_db d w)
    end.

(** A connection checked out of the pool [holder]. *)
Record Connection : Type := mkConnection { holder : nat }.

Definition take (po : Pool) : Pool :=
  mkPool (pool_dsn po) (pool_size po) (pred (pool_free po)) (pool_closed po).
Definition give_back (po : Pool) : Pool :=
  mkPool (pool_dsn po) (pool_size po) (S (pool_free po)) (pool_closed po).
Definition shut (po : Pool) : Pool :=
  if pool_closed po then po
  else mkPool (pool_dsn po) (pool_size po) 0 true.

(** Entering [pool.acquire()]: asyncpg refuses on a closed pool, waits when
    no connection is free, and otherwise checks one out. *)
Definition pool_acquire (p : nat) : M Connection :=
  fun w =>
    match pools w !! p with
    | None => (Raise InterfaceError, w)
    | Some po =>
        if pool_closed po then (Raise InterfaceError, w)
        else
          match pool_free po with
          | O => (Raise Suspended, w)
          | S _ =>
              (Ok (mkConnection p),
               add_event (EvAcquire p) (set_pools (alter take p) w))
          end
    end.

(** Leaving [pool.acquire()]: the connection goes back to its pool. *)
Definition pool_release (c : Connection) : M unit :=
  fun w =>
    (Ok tt,
     add_event (EvRelease (holder c)) (set_pools (alter give_back (holder c)) w)).

(** [pool.close()]: returns at once on a pool already closed. *)
Definition pool_close (p : nat) : M unit :=
  fun w => (Ok tt, add_event (EvPoolClose p) (set_pools (alter shut p) w)).

(** [conn.fetchval], [conn.fetch], [conn.fetchrow], [conn.execute]. *)
Definition conn_call (m : method) (c : Connection) (text : string)
  (args : list pyval) (column : option Z) (timeout : option (Time E))
  : M (Val E) :=
  fun w =>
    let w := add_event (EvCall m (holder c) text args column timeout) w in
    let (r, d) := pg_call E m text args column timeout (db w) in
    (r, set_db d w).

(** ** class PG *)

Definition RequestTimeout : Z := 0.

(** [_dialect = LiteralDialect(paramstyle='pyformat', implicit_returning=True)] *)
Definition _dialect : Dialect := mkDialect "pyformat" true (default_encoding E).

Definition __init__ : PG := mkPG None None None None.

(** The property [engine]. *)
Definition engine : M (Engine E) :=
  let* s := get_self in
  match _engine s with
  | None =>
      let* e := create_engine (_dsn s) in
      let* _ := modify_self
                  (fun s => mkPG (_dsn s) (_metadata s) (Some e) (_pool s)) in
      ret e
  | Some e => ret e
  end.

(** [self._metadata.create_all(self.engine)]: the attribute of [_metadata]
    is looked up before the argument is evaluated. *)
Definition create_tables : M unit :=
  let* s := get_self in
  match _metadata s with
  | None => throw AttributeError
  | Some md =>
      let* e := engine in
      let* _ := create_all md e in
      logger DEBUG "The schema tables created."
  end.

Definition drop_tables : M unit :=
  let* s := get_self in
  match _metadata s with
  | None => throw AttributeError
  | Some md =>
      let* e := engine in
      let* _ := drop_all md e in
      logger DEBUG "The schema tables dropped."
  end.

Definition init (dsn : string) (metadata : MetaData E) : M unit :=
  let* _ := modify_self
              (fun s => mkPG (Some dsn) (_metadata s) (_engine s) (_pool s)) in
  let* _ := modify_self
              (fun s => mkPG (_dsn s) (Some metadata) (_engine s) (_pool s)) in
  create_tables.

Definition _connect : M unit :=
  let* s := get_self in
  let* p := create_pool (_dsn s) in
  let* _ := modify_self
              (fun s => mkPG (_dsn s) (_metadata s) (_engine s) (Some p)) in
  logger DEBUG "PostgreSQL connection pool connected.".

(** The context manager [connection]: the block of the caller is [body].  A
    pool object is always truthy, so [not self._pool] asks whether the
    attribute is still [None]. *)
Definition connection {A} (body : Connection -> M A) : M A :=
  let* s := get_self in
  let* _ := match _pool s with
            | None => _connect
            | Some _ => ret tt
            end in
  let* s := get_self in
  match _pool s with
  | None => throw AttributeError
  | Some p => async_with (pool_acquire p) pool_release body
  end.

Definition close : M unit :=
  let* s := get_self in
  match _pool s with
  | None => logger WARNING "Connection pool already closed!"
  | Some p =>
      let* _ := pool_close p in
      logger DEBUG "Connection pool closed..."
  end.

(** [_literalquery(query, literal_binds=True)]; a [str] has no [compile]. *)
Definition _literalquery (q : query) (literal_binds : bool) : M string :=
  match q with
  | QText _ => throw AttributeError
  | QOrm st | QExpr st =>
      let* literal := (fun w => (sa_compile E st _dialect literal_binds, w)) in
      let* _ := logger DEBUG literal in
      ret literal
  end.

Definition fetchval (q : query) (args : list pyval) (column : Z)
  (timeout : option (Time E)) : M (Val E) :=
  let* text := match q with
               | QText s => ret s
               | _ => _literalquery q true
               end in
  connection (fun conn => conn_call Fetchval conn text args (Some column) timeout).

Definition fetch (q : query) (args : list pyval) (timeout : option (Time E))
  : M (Val E) :=
  let* text := match q with
               | QText s => ret s
               | _ => _literalquery q true
               end in
  connection (fun conn => conn_call Fetch conn text args None timeout).

Definition fetchrow (q : query) (args : list pyval) (timeout : option (Time E))
  : M (Val E) :=
  let* text := match q with
               | QText s => ret s
               | _ => _literalquery q true
               end in
  connection (fun conn => conn_call Fetchrow conn text args None timeout).

Definition execute (q : query) (args : list pyval) (timeout : option (Time E))
  : M (Val E) :=
  let* text := match q with
               | QText s => ret s
               | _ => _literalquery q true
               end in
  connection (fun conn => conn_call Execute conn text args None timeout).

(** ** Callers *)

(** One call of a query operation, with its arguments ([column] is read by
    [fetchval] only). *)
Record request : Type := mkRequest {
  rq_method : method;
  rq_query : query;
  rq_args : list pyval;
  rq_column : Z;
  rq_timeout : option (Time E)
}.

Definition query_op (rq : request) : M (Val E) :=
  match rq_method rq with
  | Fetchval => fetchval (rq_query rq) (rq_args rq) (rq_column rq) (rq_timeout rq)
  | Fetch => fetch (rq_query rq) (rq_args rq) (rq_timeout rq)
  | Fetchrow => fetchrow (rq_query rq) (rq_args rq) (rq_timeout rq)
  | Execute => execute (rq_query rq) (rq_args rq) (rq_timeout rq)
  end.

(** The column handed to the driver: only [fetchval] has one. *)
Definition column_of (rq : request) : option Z :=
  match rq_method rq with
  | Fetchval => Some (rq_column rq)
  | _ => None
  end.

(** The world after a query operation, whatever it returned or raised. *)
Definition after (rq : request) (w : World) : World := snd (query_op rq w).

(** A caller that issues the requests in turn and carries on after a
    failure. *)
Definition run_requests (rqs : list request) (w : World) : World :=
  fold_left (fun w rq => after rq w) rqs w.

(** Any use of the public surface. *)
Inductive api_call : Type :=
| CallInit (dsn : string) (metadata : MetaData E)
| CallCreateTables
| CallDropTables
| CallQuery (rq : request)
| CallClose.

Definition api_step (c : api_call) (w : World) : World :=
  match c with
  | CallInit dsn metadata => snd (init dsn metadata w)
  | CallCreateTables => snd (create_tables w)
  | CallDropTables => snd (drop_tables w)
  | CallQuery rq => after rq w
  | CallClose => snd (close w)
  end.

Definition api_run (cs : list api_call) (w : World) : World :=
  fold_left (fun w c => api_step c w) cs w.

(** The calls that a step added to the trace. *)
Definition emitted (w w' : World) : list event :=
  drop (length (trace w)) (trace w').

Definition is_acquire (p : nat) (ev : event) : bool :=
  match ev with
  | EvAcquire p' => Nat.eqb p p'
  | _ => false
  end.

Definition is_release (p : nat) (ev : event) : bool :=
  match ev with
  | EvRelease p' => Nat.eqb p p'
  | _ => false
  end.

Definition is_create_pool (ev : event) : bool :=
  match ev with
  | EvCreatePool _ => true
  | _ => false
  end.

Definition is_create_all (ev : event) : bool :=
  match ev with
  | EvCreateAll _ _ => true
  | _ => false
  end.

Definition is_create_engine (ev : event) : bool :=
  match ev with
  | EvCreateEngine _ => true
  | _ => false
  end.

(** How often a kind of call occurs among some events. *)
Definition occurrences (kind : event -> bool) (evs : list event) : nat :=
  length (List.filter kind evs).

(** ** The two halves of a query operation

    The four operations share their first statement (the [isinstance] test
    and the call of [_literalquery]) and the shape of their second (the
    [async with] block around one driver call). *)

Definition render (q : query) : M string :=
  match q with
  | QText s => ret s
  | _ => _literalquery q true
  end.

Definition serve (m : method) (text : string) (args : list pyval)
  (column : option Z) (timeout : option (Time E)) : M (Val E) :=
  connection (fun conn => conn_call m conn text args column timeout).

Definition statement_of (q : query) : option (Stmt E) :=
  match q with
  | QText _ => None
  | QOrm st | QExpr st => Some st
  end.

(** The ways [render] can end. *)
Inductive Rendered (q : query) (w : World) : result string * World -> Prop :=
| rendered_text s :
    q = QText s ->
    Rendered q w (Ok s, w)
| rendered_literal st text :
    statement_of q = Some st ->
    sa_compile E st _dialect true = Ok text ->
    Rendered q w (Ok text, add_log (DEBUG, text) w)
| rendered_error st e :
    statement_of q = Some st ->
    sa_compile E st _dialect true = Raise e ->
    Rendered q w (Raise e, w).

(** The text a query operation works with: the argument itself when it is
    raw text, and otherwise what [_literalquery] returns for it. *)
Definition renders_to (q : query) (w : World) (text : string) : Prop :=
  q = QText text \/
  ((forall s, q <> QText s) /\ fst (_literalquery q true w) = Ok text).

(** The pool of the instance is in service: open, with a free connection. *)
Definition in_service (w : World) (p : nat) : Prop :=
  _pool (self w) = Some p /\
  exists po, pools w !! p = Some po /\ pool_closed po = false /\
             pool_free po <> 0.

Definition with_pool (s : PG) (p : nat) : PG :=
  mkPG (_dsn s) (_metadata s) (_engine s) (Some p).

Definition connected : level * string :=
  (DEBUG, "PostgreSQL connection pool connected.").

(** The ways [serve] can end: on a pool in service, on a pool that refuses
    or has nothing free, and on an instance that has no pool yet. *)
Inductive Served (m : method) (text : string) (args : list pyval)
  (column : option Z) (timeout : option (Time E)) (w : World)
  : result (Val E) * World -> Prop :=
| served_live p po :
    _pool (self w) = Some p ->
    pools w !! p = Some po ->
    pool_closed po = false ->
    pool_free po <> 0 ->
    Served m text args column timeout w
      (fst (pg_call E m text args column timeout (db w)),
       mkWorld (self w) (pools w)
         (snd (pg_call E m text args column timeout (db w)))
         (log w)
         (trace w ++ [EvAcquire p; EvCall m p text args column timeout;
                      EvRelease p]))
| served_refused p :
    _pool (self w) = Some p ->
    (pools w !! p = None \/
     exists po, pools w !! p = Some po /\ pool_closed po = true) ->
    Served m text args column timeout w (Raise InterfaceError, w)
| served_suspended p po :
    _pool (self w) = Some p ->
    pools w !! p = Some po ->
    pool_closed po = false ->
    pool_free po = 0 ->
    Served m text args column timeout w (Raise Suspended, w)
| served_unavailable e d :
    _pool (self w) = None ->
    pg_create_pool E (_dsn (self w)) (db w) = (Raise e, d) ->
    Served m text args column timeout w
      (Raise e,
       mkWorld (self w) (pools w) d (log w)
         (trace w ++ [EvCreatePool (_dsn (self w))]))
| served_first n d :
    _pool (self w) = None ->
    pg_create_pool E (_dsn (self w)) (db w) = (Ok (S n), d) ->
    Served m text args column timeout w
      (fst (pg_call E m text args column timeout d),
       mkWorld (with_pool (self w) (length (pools w)))
         (pools w ++ [mkPool (_dsn (self w)) (S n) (S n) false])
         (snd (pg_call E m text args column timeout d))
         (log w ++ [connected])
         (trace w ++ [EvCreatePool (_dsn (self w));
                      EvAcquire (length (pools w));
                      EvCall m (length (pools w)) text args column timeout;
                      EvRelease (length (pools w))]))
| served_first_empty d :
    _pool (self w) = None ->
    pg_create_pool E (_dsn (self w)) (db w) = (Ok 0, d) ->
    Served m text args column timeout w
      (Raise Suspended,
       mkWorld (with_pool (self w) (length (pools w)))
         (pools w ++ [mkPool (_dsn (self w)) 0 0 false])
         d
         (log w ++ [connected])
         (trace w ++ [EvCreatePool (_dsn (self w))])).

(** ** The two DDL operations

    [create_tables] and [drop_tables] differ in the library call they make
    and in the line they log. *)

Inductive ddl : Type := Create | Drop.

Definition schema_op (k : ddl) : M unit :=
  match k with
  | Create => create_tables
  | Drop => drop_tables
  end.

Definition ddl_event (k : ddl) (md : MetaData E) (e : Engine E) : event :=
  match k with
  | Create => EvCreateAll md e
  | Drop => EvDropAll md e
  end.

Definition ddl_answer (k : ddl) (md : MetaData E) (e : Engine E) (d : DB E)
  : result unit * DB E :=
  match k with
  | Create => sa_create_all E md e d
  | Drop => sa_drop_all E md e d
  end.

Definition ddl_log (k : ddl) (r : result unit) : list (level * string) :=
  match r, k with
  | Ok _, Create => [(DEBUG, "The schema tables created.")]
  | Ok _, Drop => [(DEBUG, "The schema tables dropped.")]
  | Raise _, _ => []
  end.

Definition with_engine (s : PG) (e : Engine E) : PG :=
  mkPG (_dsn s) (_metadata s) (Some e) (_pool s).

(** The instance once [init] has made its two assignments. *)
Definition bound (dsn : string) (metadata : MetaData E) (w : World) : World :=
  set_self (fun s => mkPG (Some dsn) (Some metadata) (_engine s) (_pool s)) w.

(** The ways a DDL operation can end: no metadata bound, no engine to be
    had, or the library call made on the cached or on a new engine. *)
Inductive Schema (k : ddl) (w : World) : result unit * World -> Prop :=
| schema_unbound :
    _metadata (self w) = None ->
    Schema k w (Raise AttributeError, w)
| schema_no_engine md x :
    _metadata (self w) = Some md ->
    _engine (self w) = None ->
    sa_create_engine E (_dsn (self w)) = Raise x ->
    Schema k w
      (Raise x,
       mkWorld (self w) (pools w) (db w) (log w)
         (trace w ++ [EvCreateEngine (_dsn (self w))]))
| schema_cached md e :
    _metadata (self w) = Some md ->
    _engine (self w) = Some e ->
    Schema k w
      (fst (ddl_answer k md e (db w)),
       mkWorld (self w) (pools w) (snd (ddl_answer k md e (db w)))
         (log w ++ ddl_log k (fst (ddl_answer k md e (db w))))
         (trace w ++ [ddl_event k md e]))
| schema_new md e :
    _metadata (self w) = Some md ->
    _engine (self w) = None ->
    sa_create_engine E (_dsn (self w)) = Ok e ->
    Schema k w
      (fst (ddl_answer k md e (db w)),
       mkWorld (with_engine (self w) e) (pools w)
         (snd (ddl_answer k md e (db w)))
         (log w ++ ddl_log k (fst (ddl_answer k md e (db w))))
         (trace w ++ [EvCreateEngine (_dsn (self w)); ddl_event k md e])).

(** ** Two query operations at once

    A coroutine gives way where it awaits.  In [connection] the first such
    place is [await self._connect()]: between the test of [_pool] and the
    assignment of the pool that [asyncpg.create_pool] is awaited for,
    another coroutine can run. *)

(** [connection] up to that await: the test of [_pool] and, when it is
    unset, the call of [asyncpg.create_pool]; the answer is the pool the
    coroutine now waits for, if any. *)
Definition connection_until_await : M (option nat) :=
  let* s := get_self in
  match _pool s with
  | None => let* p := create_pool (_dsn s) in ret (Some p)
  | Some _ => ret None
  end.

(** [connection] from its resumption on: the assignment to [_pool] and the
    debug line of [_connect], then the [async with] around the block. *)
Definition connection_resume {A} (awaited : option nat)
  (body : Connection -> M A) : M A :=
  let* _ := match awaited with
            | Some p =>
                let* _ := modify_self
                            (fun s => mkPG (_dsn s) (_metadata s) (_engine s)
                                        (Some p)) in
                logger DEBUG "PostgreSQL connection pool connected."
            | None => ret tt
            end in
  let* s := get_self in
  match _pool s with
  | None => throw AttributeError
  | Some p => async_with (pool_acquire p) pool_release body
  end.

(** A query operation up to the await, and from its resumption. *)
Definition begin_query (rq : request) : M (string * option nat) :=
  let* text := render (rq_query rq) in
  let* awaited := connection_until_await in
  ret (text, awaited).

Definition finish_query (rq : request) (st : string * option nat)
  : M (Val E) :=
  connection_resume (snd st)
    (fun conn => conn_call (rq_method rq) conn (fst st) (rq_args rq)
                   (column_of rq) (rq_timeout rq)).


(** ** The rest of the class, and what a caller can rely on *)

(** [__repr__] (and [__str__]): the bound connection string as it is;
    before [init] that is [None], which [repr] refuses. *)
Definition __repr__ (s : PG) : option string := _dsn s.

Definition is_init (c : api_call) : bool :=
  match c with
  | CallInit _ _ => true
  | _ => false
  end.

(** A pool with nothing checked out: all of its connections free while it
    is open, none left once it is closed. *)
Definition at_rest (po : Pool) : Prop :=
  pool_free po = if pool_closed po then 0 else pool_size po.

(** Between two calls of a caller: every pool is at rest, and [_pool], when
    set, refers to a pool that exists. *)
Definition tidy (w : World) : Prop :=
  (forall p po, pools w !! p = Some po -> at_rest po) /\
  (forall p, _pool (self w) = Some p -> p < length (pools w)).

(** The pools that exist, plus the one that may still be built. *)
Definition pool_budget (w : World) : nat :=
  length (pools w) + match _pool (self w) with Some _ => 0 | None => 1 end.

(** The world in which the block of [connection] runs, and the world left
    once the connection went back. *)
Definition acquired (p : nat) (w : World) : World :=
  add_event (EvAcquire p) (set_pools (alter take p) w).

Definition released (p : nat) (w : World) : World :=
  add_event (EvRelease p) (set_pools (alter give_back p) w).

End Model.

Notation "'let*' x ':=' m 'in' k" := (bind m (fun x => k))
  (at level 10, x name, m at level 100, k at level 200) : pg_scope.
Open Scope pg_scope.

(** ** A small environment to run the code on

    A database that counts the driver calls it served; statements are given
    with both of their renderings; the driver echoes the text it was asked to
    run, except for one failing statement. *)

Definition demo_compile (st : string * string) (d : Dialect) (literal_binds : bool)
  : result string :=
  Ok (if literal_binds then snd st else fst st).

Definition demo_call (m : method) (text : string) (args : list pyval)
  (column : option Z) (timeout : option Z) (served : nat)
  : result string * nat :=
  if String.eqb text "SELECT 1/0"
  then (Raise (External "DivisionByZeroError"), S served)
  else (Ok text, S served).

Definition demo : Env := {|
  DB := nat;
  Val := string;
  Stmt := string * string;
  MetaData := list string;
  Engine := string;
  Time := Z;
  default_encoding := "utf-8";
  sa_compile := demo_compile;
  sa_create_engine := fun dsn =>
    match dsn with
    | Some url => Ok url
    | None => Raise (External "ArgumentError")
    end;
  sa_create_all := fun _ _ d => (Ok tt, d);
  sa_drop_all := fun _ _ d => (Ok tt, d);
  pg_create_pool := fun _ d => (Ok 10, d);
  pg_call := demo_call
|}.

(** A freshly constructed instance in an empty world. *)
Definition fresh : @World demo :=
  mkWorld (E:=demo) __init__ [] 0 [] [].

Definition demo_dsn : string := "postgresql://aqt@localhost/aqt".
Definition demo_other_dsn : string := "postgresql://aqt@standby/aqt".
Definition demo_metadata : MetaData demo := ["bars"; "ticks"].

Definition select_one : @request demo :=
  mkRequest (E:=demo) Fetchval (QText "SELECT 1") [] 0 None.

Definition select_failing : @request demo :=
  mkRequest (E:=demo) Fetch (QText "SELECT 1/0") [] 0 (Some 5%Z).

Definition delete_42 : @request demo :=
  mkRequest (E:=demo) Execute
    (QExpr (E:=demo)
       ("DELETE FROM t WHERE id = %(id_1)s", "DELETE FROM t WHERE id = 42"))
    [] 0 None.

(** An instance after [init] and one query: its pool is in service. *)
Definition warm : @World demo :=
  after select_one (snd (init (E:=demo) demo_dsn demo_metadata fresh)).

(** A second environment, in which things go wrong: a statement may fail
    to compile ([None]), SQLAlchemy rejects one connection string, the DDL
    fails on metadata naming a locked table, and asyncpg refuses the first
    pool it is asked for and grants the later ones. *)
Definition flaky : Env := {|
  DB := nat;
  Val := string;
  Stmt := option string;
  MetaData := list string;
  Engine := string;
  Time := Z;
  default_encoding := "utf-8";
  sa_compile := fun st _ _ =>
    match st with
    | Some text => Ok text
    | None => Raise (External "CompileError")
    end;
  sa_create_engine := fun dsn =>
    match dsn with
    | Some url =>
        if String.eqb url "not a url" then Raise (External "ArgumentError")
        else Ok url
    | None => Raise (External "ArgumentError")
    end;
  sa_create_all := fun md _ d =>
    if existsb (String.eqb "locked") md
    then (Raise (External "OperationalError"), d)
    else (Ok tt, d);
  sa_drop_all := fun md _ d =>
    if existsb (String.eqb "locked") md
    then (Raise (External "OperationalError"), d)
    else (Ok tt, d);
  pg_create_pool := fun _ attempts =>
    match attempts with
    | O => (Raise (External "ConnectionRefusedError"), 1)
    | S _ => (Ok 2, S attempts)
    end;
  pg_call := demo_call
|}.

Definition flaky_fresh : @World flaky :=
  mkWorld (E:=flaky) __init__ [] 0 [] [].

Definition flaky_select : @request flaky :=
  mkRequest (E:=flaky) Fetchrow (QText "SELECT 1") [PyInt 7] 0 None.

Definition flaky_uncompilable : @request flaky :=
  mkRequest (E:=flaky) Fetch (QOrm (E:=flaky) None) [] 0 None.

(** An escaper that answers in bytes, and a decoder that knows no ASCII. *)
Definition bytes_escaper (d : Dialect) (s : string) : escaped :=
  Bytes (list_byte_of_string s).

Definition strict_decode (raw : list Byte.byte) (enc : string) : result string :=
  if String.eqb enc "ascii" then Raise (External "UnicodeDecodeError")
  else Ok (string_of_list_byte raw).










(** * Properties *)

Section Facts.
Context {E : Env}.
Implicit Types (w : @World E) (rq : @request E) (q : @query E) (p : nat).

(** ** Pool bookkeeping *)

Lemma give_back_take (po : Pool) :
  pool_free po <> 0 -> give_back (take po) = po.
Proof.
  destruct po as [d n f c]; unfold give_back, take; simpl.
  intros Hf. destruct f; [congruence | reflexivity].
Qed.

Lemma alter_give_back_take (ps : list Pool) p po :
  ps !! p = Some po -> pool_free po <> 0 ->
  alter give_back p (alter take p ps) = ps.
Proof.
  intros Hp Hf. apply list_eq; intros i.
  destruct (decide (i = p)) as [->|Hne].
  - rewrite !list_lookup_alter_eq, Hp. simpl. by rewrite give_back_take.
  - by rewrite !list_lookup_alter_ne.
Qed.

Lemma emitted_app w (w' : @World E) evs :
  trace w' = trace w ++ evs -> emitted w w' = evs.
Proof. intros H. unfold emitted. rewrite H. by rewrite drop_app_length. Qed.

(** ** The outcomes of the two halves *)

Lemma query_op_split rq :
  query_op rq =
  bind (render (rq_query rq))
       (fun text => serve (rq_method rq) text (rq_args rq) (column_of rq)
                      (rq_timeout rq)).
Proof.
  unfold query_op, column_of. destruct (rq_method rq); reflexivity.
Qed.

Lemma render_cases q w : Rendered q w (render q w).
Proof.
  destruct q as [s|st|st]; simpl.
  - by eapply rendered_text.
  - unfold bind, logger, ret.
    destruct (sa_compile E st _dialect true) as [text|e] eqn:Hc.
    + by eapply rendered_literal.
    + by eapply rendered_error.
  - unfold bind, logger, ret.
    destruct (sa_compile E st _dialect true) as [text|e] eqn:Hc.
    + by eapply rendered_literal.
    + by eapply rendered_error.
Qed.

Lemma serve_cases m text args column timeout w :
  Served m text args column timeout w (serve m text args column timeout w).
Proof.
  destruct w as [[dsn md eng [p|]] ps d lg tr].
  - unfold serve, connection, bind, get_self; simpl.
    unfold async_with, bind, pool_acquire; simpl.
    destruct (ps !! p) as [po|] eqn:Hp.
    + destruct (pool_closed po) eqn:Hc.
      * eapply served_refused; simpl; eauto.
      * destruct (pool_free po) as [|n] eqn:Hf.
        -- eapply served_suspended; simpl; eauto.
        -- unfold finally, conn_call, pool_release; simpl.
           assert (Hfree : pool_free po <> 0) by lia.
           pose proof (served_live m text args column timeout
                         (mkWorld (mkPG dsn md eng (Some p)) ps d lg tr)
                         p po eq_refl Hp Hc Hfree) as H.
           simpl in H.
           destruct (pg_call E m text args column timeout d) as [r d0].
           unfold set_db, add_event, set_pools; simpl.
           rewrite (alter_give_back_take ps p po Hp Hfree).
           rewrite <- !app_assoc; simpl. exact H.
    + eapply served_refused; simpl; eauto.
  - unfold serve, connection, _connect, create_pool, bind, get_self,
      modify_self, logger, set_self, set_db, add_event, set_pools, add_log;
      simpl.
    destruct (pg_create_pool E dsn d) as [[n|e] d0] eqn:Hcp; simpl.
    + unfold async_with, bind, pool_acquire; simpl.
      rewrite lookup_app_r by lia. rewrite Nat.sub_diag. simpl.
      destruct n as [|n].
      * pose proof (served_first_empty m text args column timeout
                      (mkWorld (mkPG dsn md eng None) ps d lg tr) d0
                      eq_refl Hcp) as H.
        exact H.
      * unfold finally, conn_call, pool_release; simpl.
        pose proof (served_first m text args column timeout
                      (mkWorld (mkPG dsn md eng None) ps d lg tr) n d0
                      eq_refl Hcp) as H.
        simpl in H.
        destruct (pg_call E m text args column timeout d0) as [r d1].
        unfold set_db, add_event, set_pools; simpl.
        rewrite (alter_give_back_take _ (length ps)
                   (mkPool dsn (S n) (S n) false)).
        -- rewrite <- !app_assoc; simpl. exact H.
        -- rewrite lookup_app_r by lia. by rewrite Nat.sub_diag.
        -- simpl; lia.
    + pose proof (served_unavailable m text args column timeout
                    (mkWorld (mkPG dsn md eng None) ps d lg tr) e d0
                    eq_refl Hcp) as H.
      exact H.
Qed.

Lemma rendered_frame q w r w1 :
  Rendered q w (r, w1) ->
  self w1 = self w /\ pools w1 = pools w /\ db w1 = db w /\
  trace w1 = trace w.
Proof. inversion 1; subst; simpl; auto. Qed.

Lemma rendered_log q w r w1 :
  Rendered q w (r, w1) ->
  log w1 = log w \/ exists text, r = Ok text /\ log w1 = log w ++ [(DEBUG, text)].
Proof. inversion 1; subst; simpl; eauto. Qed.

(** Every run of a query operation: the rendering fails and nothing else
    happens, or the rendered text is served. *)
Lemma query_op_cases rq w :
  (exists e w1,
      render (rq_query rq) w = (Raise e, w1) /\
      Rendered (rq_query rq) w (Raise e, w1) /\
      query_op rq w = (Raise e, w1)) \/
  (exists text w1,
      render (rq_query rq) w = (Ok text, w1) /\
      Rendered (rq_query rq) w (Ok text, w1) /\
      Served (rq_method rq) text (rq_args rq) (column_of rq) (rq_timeout rq)
        w1 (query_op rq w)).
Proof.
  rewrite query_op_split. unfold bind.
  pose proof (render_cases (rq_query rq) w) as Hr.
  destruct (render (rq_query rq) w) as [[text|e] w1].
  - right. exists text, w1. repeat split; [exact Hr | apply serve_cases].
  - left. eauto.
Qed.

Lemma emitted_nil w (w' : @World E) :
  trace w' = trace w -> emitted w w' = [].
Proof.
  intros H. apply emitted_app. by rewrite app_nil_r.
Qed.

(** ** The outcomes of the DDL operations, of [init] and of [close] *)

Lemma schema_cases (k : ddl) w : Schema k w (schema_op k w).
Proof.
  destruct w as [[dsn [md|] eng pl] ps d lg tr].
  2: { destruct k; by eapply schema_unbound. }
  destruct eng as [e|].
  - pose proof (schema_cached k
                  (mkWorld (mkPG dsn (Some md) (Some e) pl) ps d lg tr)
                  md e eq_refl eq_refl) as H.
    destruct k; simpl in *;
      unfold create_tables, drop_tables, engine, create_all, drop_all, bind,
        get_self, ret, logger, set_db, add_event, add_log; simpl.
    + destruct (sa_create_all E md e d) as [[[]|x] d0]; simpl in *;
        rewrite ?app_nil_r in H; exact H.
    + destruct (sa_drop_all E md e d) as [[[]|x] d0]; simpl in *;
        rewrite ?app_nil_r in H; exact H.
  - destruct (sa_create_engine E dsn) as [e|x] eqn:He.
    + pose proof (schema_new k
                    (mkWorld (mkPG dsn (Some md) None pl) ps d lg tr)
                    md e eq_refl eq_refl He) as H.
      destruct k; simpl in *;
        unfold create_tables, drop_tables, engine, create_engine, create_all,
          drop_all, bind, get_self, modify_self, ret, logger, set_self,
          set_db, add_event, add_log; simpl; rewrite He; simpl.
      * destruct (sa_create_all E md e d) as [[[]|x] d0]; simpl in *;
          rewrite ?app_nil_r in H; rewrite <- ?app_assoc; exact H.
      * destruct (sa_drop_all E md e d) as [[[]|x] d0]; simpl in *;
          rewrite ?app_nil_r in H; rewrite <- ?app_assoc; exact H.
    + pose proof (schema_no_engine k
                    (mkWorld (mkPG dsn (Some md) None pl) ps d lg tr)
                    md x eq_refl eq_refl He) as H.
      destruct k; simpl in *;
        unfold create_tables, drop_tables, engine, create_engine, bind,
          get_self, add_event; simpl; rewrite He; exact H.
Qed.

Lemma init_bound dsn md w : init dsn md w = create_tables (bound dsn md w).
Proof. reflexivity. Qed.

Lemma close_without_pool w :
  _pool (self w) = None ->
  close w = (Ok tt, add_log (WARNING, "Connection pool already closed!") w).
Proof.
  intros H. unfold close, bind, get_self. simpl. by rewrite H.
Qed.

Lemma close_with_pool w p :
  _pool (self w) = Some p ->
  close w =
  (Ok tt,
   mkWorld (self w) (alter shut p (pools w)) (db w)
     (log w ++ [(DEBUG, "Connection pool closed...")])
     (trace w ++ [EvPoolClose p])).
Proof.
  intros H. unfold close, bind, get_self. simpl. by rewrite H.
Qed.

Lemma shut_closed (po : Pool) : pool_closed (shut po) = true.
Proof. unfold shut. by destruct (pool_closed po) eqn:H. Qed.

Lemma shut_idempotent (po : Pool) : shut (shut po) = shut po.
Proof. unfold shut at 1. by rewrite shut_closed. Qed.

Lemma occurrences_app (kind : @event E -> bool) (a b : list event) :
  occurrences kind (a ++ b) = occurrences kind a + occurrences kind b.
Proof. unfold occurrences. by rewrite List.filter_app, length_app. Qed.

Lemma emitted_trans w (w1 w2 : @World E) evs1 evs2 :
  trace w1 = trace w ++ evs1 -> trace w2 = trace w1 ++ evs2 ->
  emitted w w2 = evs1 ++ evs2.
Proof.
  intros H1 H2. apply emitted_app. by rewrite H2, H1, app_assoc.
Qed.

(** The two halves of [connection] and of a query operation, put
    together again, are the whole. *)
Lemma connection_halves {A} (body : Connection -> M A) w :
  connection body w =
  bind connection_until_await (fun awaited => connection_resume awaited body) w.
Proof.
  unfold connection, connection_until_await, connection_resume, _connect,
    bind, get_self, ret. simpl.
  destruct (_pool (self w)) as [p|] eqn:Hp; simpl.
  - by rewrite Hp.
  - destruct (create_pool (_dsn (self w)) w) as [[p|e] w1]; reflexivity.
Qed.

Lemma query_op_halves rq w :
  query_op rq w = bind (begin_query rq) (finish_query rq) w.
Proof.
  rewrite query_op_split. unfold begin_query, finish_query, serve, bind, ret.
  destruct (render (rq_query rq) w) as [[text|e] w1]; [|reflexivity].
  rewrite connection_halves. unfold bind.
  by destruct (connection_until_await w1) as [[awaited|e] w2].
Qed.

Lemma emitted_more w s ps d lg evs :
  emitted w (mkWorld s ps d lg (trace w ++ evs)) = evs.
Proof. by apply emitted_app. Qed.

Lemma emitted_same w s ps d lg :
  emitted w (mkWorld s ps d lg (trace w)) = [].
Proof. by apply emitted_nil. Qed.

Lemma emitted_self w : emitted w w = [].
Proof. by apply emitted_nil. Qed.

End Facts.

(** Splits a run of a query operation into its possible outcomes; in each,
    the world after the operation is known field by field. *)
Ltac query_outcomes rq w :=
  let e := fresh "e" in
  let text := fresh "text" in
  let w1 := fresh "w1" in
  let Hr := fresh "Hrender" in
  let He := fresh "Hrendered" in
  let Hs := fresh "Hserve" in
  let Hq := fresh "Hq" in
  let Hself := fresh "Hself" in
  let Hpools := fresh "Hpools" in
  let Hdb := fresh "Hdb" in
  let Htrace := fresh "Htrace" in
  unfold after in *;
  destruct (query_op_cases rq w)
    as [(e & w1 & He & Hr & Hq)|(text & w1 & He & Hr & Hs)];
  [ rewrite Hq in *
  | inversion Hs; subst ];
  destruct (rendered_frame _ _ _ _ Hr) as (Hself & Hpools & Hdb & Htrace);
  simpl in *;
  rewrite ?Hself, ?Hpools, ?Hdb, ?Htrace in *;
  rewrite ?emitted_more, ?emitted_same, ?(emitted_nil _ _ Htrace) in *.

Section Claims.
Context {E : Env}.
Implicit Types (w : @World E) (rq : @request E) (q : @query E) (p : nat).

Lemma lookup_fresh_pool (ps : list Pool) (new po : Pool) p :
  ps !! p = None -> (ps ++ [new]) !! p = Some po -> po = new.
Proof.
  intros Hnone Hsome. apply lookup_ge_None in Hnone.
  rewrite lookup_app_r in Hsome by lia.
  destruct (p - length ps) as [|k]; simpl in Hsome; [congruence | done].
Qed.

Lemma renders_to_render q w text :
  renders_to q w text ->
  exists w1, render q w = (Ok text, w1) /\
             self w1 = self w /\ pools w1 = pools w /\ db w1 = db w /\
             trace w1 = trace w /\
             (log w1 = log w \/ log w1 = log w ++ [(DEBUG, text)]) /\
             ((forall s, q <> QText s) -> log w1 = log w ++ [(DEBUG, text)]).
Proof.
  intros [->|[Hq Hl]].
  - exists w. simpl. unfold ret. repeat split; auto. intros H. by destruct (H text).
  - destruct q as [s|st|st]; [by destruct (Hq s) | |];
      simpl in *; unfold bind, logger, ret in *;
      destruct (sa_compile E st _dialect true) as [t|e]; simpl in Hl;
      try discriminate; injection Hl as ->;
      (eexists; split; [reflexivity | simpl; repeat split; auto]).
Qed.

Lemma serve_in_service m text args column timeout w p :
  in_service w p ->
  serve m text args column timeout w =
  (fst (pg_call E m text args column timeout (db w)),
   mkWorld (self w) (pools w)
     (snd (pg_call E m text args column timeout (db w)))
     (log w)
     (trace w ++ [EvAcquire p; EvCall m p text args column timeout;
                  EvRelease p])).
Proof.
  intros (Hp & po & Hlk & Hopen & Hfree).
  pose proof (serve_cases m text args column timeout w) as Hs.
  inversion Hs as [p' po' Hp' ? ? ? Heq|p' Hp' Hbad|p' po' Hp' ? ? ? Heq| | |];
    try congruence.
  assert (p' = p) by congruence; subst p'.
  destruct Hbad as [?|(po' & ? & ?)]; congruence.
Qed.

(** A query operation on an instance that holds a pool leaves the
    instance and the pool objects as they were and builds no pool. *)
Lemma after_with_pool rq w p :
  _pool (self w) = Some p ->
  self (after rq w) = self w /\ pools (after rq w) = pools w /\
  exists evs, trace (after rq w) = trace w ++ evs /\
              occurrences is_create_pool evs = 0.
Proof.
  intros Hp. query_outcomes rq w; try congruence.
  - repeat split; auto. exists []. by rewrite app_nil_r.
  - repeat split; auto. eexists; split; [reflexivity | reflexivity].
  - repeat split; auto. exists []. by rewrite app_nil_r.
  - repeat split; auto. exists []. by rewrite app_nil_r.
Qed.

Lemma run_requests_with_pool rqs w p :
  _pool (self w) = Some p ->
  self (run_requests rqs w) = self w /\
  pools (run_requests rqs w) = pools w /\
  exists evs, trace (run_requests rqs w) = trace w ++ evs /\
              occurrences is_create_pool evs = 0.
Proof.
  revert w. induction rqs as [|rq rqs IH]; intros w Hp; simpl.
  - repeat split; auto. exists []. by rewrite app_nil_r.
  - destruct (after_with_pool rq w p Hp) as (Hs & Hps & evs1 & Ht1 & Hc1).
    assert (Hp1 : _pool (self (after rq w)) = Some p) by (by rewrite Hs).
    destruct (IH (after rq w) Hp1) as (Hs2 & Hps2 & evs2 & Ht2 & Hc2).
    unfold run_requests in *.
    rewrite Hs2, Hps2, Hs, Hps. repeat split; auto.
    exists (evs1 ++ evs2). split.
    + by rewrite Ht2, Ht1, app_assoc.
    + rewrite occurrences_app. lia.
Qed.

(** The first use of the pool: with a text to run and a driver that builds
    the pool, the pool is made from [_dsn] and kept in [_pool]. *)
Lemma query_op_first_use rq w text n d :
  _pool (self w) = None ->
  renders_to (rq_query rq) w text ->
  pg_create_pool E (_dsn (self w)) (db w) = (Ok n, d) ->
  self (after rq w) = with_pool (self w) (length (pools w)) /\
  pools (after rq w) = pools w ++ [mkPool (_dsn (self w)) n n false] /\
  exists evs, trace (after rq w) = trace w ++ EvCreatePool (_dsn (self w)) :: evs /\
              occurrences is_create_pool evs = 0.
Proof.
  intros Hp Hr Hcp.
  destruct (renders_to_render _ _ _ Hr) as (w1' & Hrender & _).
  query_outcomes rq w; try congruence.
  - assert (n = S n0) by congruence. subst n.
    repeat split; auto. eexists; split; reflexivity.
  - assert (n = 0) by congruence. subst n.
    repeat split; auto. exists []. split; reflexivity.
Qed.

(** What no query operation touches: the bound connection string, the
    metadata, the engine.  It calls neither [create_engine] nor the DDL. *)
Lemma after_frame rq w :
  _dsn (self (after rq w)) = _dsn (self w) /\
  _metadata (self (after rq w)) = _metadata (self w) /\
  _engine (self (after rq w)) = _engine (self w) /\
  exists evs, trace (after rq w) = trace w ++ evs /\
              occurrences is_create_engine evs = 0 /\
              occurrences is_create_all evs = 0.
Proof.
  query_outcomes rq w; repeat split; auto;
    solve [ exists []; by rewrite app_nil_r
          | eexists; split; [reflexivity | split; reflexivity] ].
Qed.

(** What a DDL operation touches: the engine, when none was cached. *)
Lemma schema_frame (k : ddl) w :
  _dsn (self (snd (schema_op k w))) = _dsn (self w) /\
  _metadata (self (snd (schema_op k w))) = _metadata (self w) /\
  _pool (self (snd (schema_op k w))) = _pool (self w) /\
  pools (snd (schema_op k w)) = pools w /\
  exists evs, trace (snd (schema_op k w)) = trace w ++ evs /\
              occurrences is_create_pool evs = 0 /\
              (forall e, _engine (self w) = Some e ->
                         _engine (self (snd (schema_op k w))) = Some e /\
                         occurrences is_create_engine evs = 0).
Proof.
  pose proof (schema_cases k w) as H.
  inversion H as [Hmd Heq|md x Hmd He Hx Heq|md e Hmd He Heq|md e Hmd He Hx Heq];
    simpl; repeat split; auto.
  - exists []. rewrite app_nil_r. repeat split; auto.
  - eexists; split; [reflexivity|]. split; [reflexivity|]. congruence.
  - eexists; split; [reflexivity|]. split; [by destruct k|].
    intros e' He'. split; [congruence | by destruct k].
  - eexists; split; [reflexivity|]. split; [by destruct k|]. congruence.
Qed.

Lemma init_frame dsn md w :
  _dsn (self (snd (init dsn md w))) = Some dsn /\
  _metadata (self (snd (init dsn md w))) = Some md /\
  _pool (self (snd (init dsn md w))) = _pool (self w) /\
  pools (snd (init dsn md w)) = pools w /\
  exists evs, trace (snd (init dsn md w)) = trace w ++ evs /\
              occurrences is_create_pool evs = 0 /\
              (forall e, _engine (self w) = Some e ->
                         _engine (self (snd (init dsn md w))) = Some e /\
                         occurrences is_create_engine evs = 0).
Proof.
  rewrite init_bound. apply (schema_frame Create (bound dsn md w)).
Qed.

Lemma close_frame w :
  _dsn (self (snd (close w))) = _dsn (self w) /\
  _metadata (self (snd (close w))) = _metadata (self w) /\
  _engine (self (snd (close w))) = _engine (self w) /\
  _pool (self (snd (close w))) = _pool (self w) /\
  exists evs, trace (snd (close w)) = trace w ++ evs /\
              occurrences is_create_engine evs = 0 /\
              occurrences is_create_pool evs = 0.
Proof.
  destruct (_pool (self w)) as [p|] eqn:Hp.
  - rewrite (close_with_pool w p Hp). simpl. repeat split; auto.
    eexists; split; [reflexivity | split; reflexivity].
  - rewrite (close_without_pool w Hp). simpl. repeat split; auto.
    exists []. by rewrite app_nil_r.
Qed.

(** Once an engine is cached, no use of the public surface replaces it or
    asks SQLAlchemy for another. *)
Lemma api_step_engine (c : api_call) w e :
  _engine (self w) = Some e ->
  _engine (self (api_step c w)) = Some e /\
  exists evs, trace (api_step c w) = trace w ++ evs /\
              occurrences is_create_engine evs = 0.
Proof.
  intros He. destruct c as [dsn md| | |rq|]; simpl.
  - destruct (init_frame dsn md w) as (_ & _ & _ & _ & evs & Ht & _ & Hk).
    destruct (Hk e He). eauto.
  - destruct (schema_frame Create w) as (_ & _ & _ & _ & evs & Ht & _ & Hk).
    destruct (Hk e He). eauto.
  - destruct (schema_frame Drop w) as (_ & _ & _ & _ & evs & Ht & _ & Hk).
    destruct (Hk e He). eauto.
  - destruct (after_frame rq w) as (_ & _ & Heng & evs & Ht & Hc & _).
    rewrite Heng. eauto.
  - destruct (close_frame w) as (_ & _ & Heng & _ & evs & Ht & Hc & _).
    rewrite Heng. eauto.
Qed.

Lemma api_run_engine (cs : list api_call) w e :
  _engine (self w) = Some e ->
  _engine (self (api_run cs w)) = Some e /\
  exists evs, trace (api_run cs w) = trace w ++ evs /\
              occurrences is_create_engine evs = 0.
Proof.
  revert w. induction cs as [|c cs IH]; intros w He; simpl.
  - split; auto. exists []. by rewrite app_nil_r.
  - destruct (api_step_engine c w e He) as (He1 & evs1 & Ht1 & Hc1).
    destruct (IH (api_step c w) He1) as (He2 & evs2 & Ht2 & Hc2).
    unfold api_run in *. split; auto.
    exists (evs1 ++ evs2). split.
    + by rewrite Ht2, Ht1, app_assoc.
    + rewrite occurrences_app. lia.
Qed.

(** A query operation on an instance whose pool was closed: asyncpg
    refuses the acquisition, and nothing is rebuilt. *)
Lemma query_op_closed_pool rq w p po text :
  _pool (self w) = Some p ->
  pools w !! p = Some po ->
  pool_closed po = true ->
  renders_to (rq_query rq) w text ->
  fst (query_op rq w) = Raise InterfaceError /\
  self (after rq w) = self w /\ pools (after rq w) = pools w /\
  trace (after rq w) = trace w.
Proof.
  intros Hp Hlk Hc Hr.
  destruct (renders_to_render _ _ _ Hr) as (w1' & Hrender & _).
  query_outcomes rq w; try congruence.
  auto.
Qed.

(** A DDL operation with metadata bound and an engine cached. *)
Lemma schema_op_cached (k : ddl) w md e :
  _metadata (self w) = Some md ->
  _engine (self w) = Some e ->
  schema_op k w =
  (fst (ddl_answer k md e (db w)),
   mkWorld (self w) (pools w) (snd (ddl_answer k md e (db w)))
     (log w ++ ddl_log k (fst (ddl_answer k md e (db w))))
     (trace w ++ [ddl_event k md e])).
Proof.
  intros Hmd He. pose proof (schema_cases k w) as H.
  inversion H; congruence.
Qed.

(** A DDL operation with metadata bound, no engine cached, and a connection
    string SQLAlchemy accepts. *)
Lemma schema_op_new (k : ddl) w md e :
  _metadata (self w) = Some md ->
  _engine (self w) = None ->
  sa_create_engine E (_dsn (self w)) = Ok e ->
  schema_op k w =
  (fst (ddl_answer k md e (db w)),
   mkWorld (with_engine (self w) e) (pools w) (snd (ddl_answer k md e (db w)))
     (log w ++ ddl_log k (fst (ddl_answer k md e (db w))))
     (trace w ++ [EvCreateEngine (_dsn (self w)); ddl_event k md e])).
Proof.
  intros Hmd He Hok. pose proof (schema_cases k w) as H.
  inversion H; congruence.
Qed.

(** [init] when an engine is at hand: one [create_all], on that engine. *)
Lemma init_with_engine dsn md w e :
  _engine (self w) = Some e \/
  (_engine (self w) = None /\ sa_create_engine E (Some dsn) = Ok e) ->
  _engine (self (snd (init dsn md w))) = Some e /\
  exists evs, trace (snd (init dsn md w)) = trace w ++ evs /\
              occurrences is_create_all evs = 1 /\
              In (EvCreateAll md e) evs.
Proof.
  intros [He|[He Hok]]; rewrite init_bound;
    change (create_tables (bound dsn md w))
      with (schema_op Create (bound dsn md w)).
  - rewrite (schema_op_cached Create (bound dsn md w) md e eq_refl He).
    simpl. split; [exact He|].
    eexists; split; [reflexivity|]. split; [reflexivity | simpl; auto].
  - rewrite (schema_op_new Create (bound dsn md w) md e eq_refl He Hok).
    simpl. split; [reflexivity|].
    eexists; split; [reflexivity|]. split; [reflexivity | simpl; auto].
Qed.

(** A query operation on a pool in service: one connection is taken, the
    driver is called once on it with the text of the query, the connection
    goes back. *)
Lemma query_op_in_service rq w p text :
  in_service w p ->
  renders_to (rq_query rq) w text ->
  exists lg,
    query_op rq w =
    (fst (pg_call E (rq_method rq) text (rq_args rq) (column_of rq)
            (rq_timeout rq) (db w)),
     mkWorld (self w) (pools w)
       (snd (pg_call E (rq_method rq) text (rq_args rq) (column_of rq)
               (rq_timeout rq) (db w)))
       lg
       (trace w ++ [EvAcquire p;
                    EvCall (rq_method rq) p text (rq_args rq) (column_of rq)
                      (rq_timeout rq);
                    EvRelease p])) /\
    (lg = log w \/ lg = log w ++ [(DEBUG, text)]) /\
    ((forall s, rq_query rq <> QText s) -> lg = log w ++ [(DEBUG, text)]).
Proof.
  intros Hin Hr.
  destruct (renders_to_render _ _ _ Hr)
    as (w1 & Hrender & Hself & Hpools & Hdb & Htrace & Hlog & Hlit).
  exists (log w1). split; [| by split].
  rewrite query_op_split. unfold bind. rewrite Hrender.
  rewrite (serve_in_service _ _ _ _ _ w1 p).
  - by rewrite Hself, Hpools, Hdb, Htrace.
  - unfold in_service in *. by rewrite Hself, Hpools.
Qed.

(** C7.  Each of the four query operations, on an instance whose pool is in
    service: when the query is not raw text it is first rendered by
    [_literalquery]; then one connection is acquired from the pool, the
    driver call of the same name is made on it with that text, the same
    positional arguments and the same timeout (and, for [fetchval], the
    column), its answer is what the operation returns or raises, and the
    connection is released. *)
Theorem query_op_delegates rq w p text :
  in_service w p ->
  renders_to (rq_query rq) w text ->
  emitted w (after rq w) =
    [EvAcquire p;
     EvCall (rq_method rq) p text (rq_args rq) (column_of rq) (rq_timeout rq);
     EvRelease p] /\
  fst (query_op rq w) =
    fst (pg_call E (rq_method rq) text (rq_args rq) (column_of rq)
           (rq_timeout rq) (db w)) /\
  db (after rq w) =
    snd (pg_call E (rq_method rq) text (rq_args rq) (column_of rq)
           (rq_timeout rq) (db w)).
Proof.
  intros Hin Hr.
  destruct (query_op_in_service rq w p text Hin Hr) as (lg & Hq & _).
  unfold after. rewrite Hq. simpl. by rewrite emitted_more.
Qed.

(** C1.  What the code does with a structured query: the literal text that
    [_literalquery] produced (and logged) is the very text handed to the
    driver call. *)
Theorem literal_text_is_executed rq w p text :
  in_service w p ->
  (forall s, rq_query rq <> QText s) ->
  fst (_literalquery (rq_query rq) true w) = Ok text ->
  In (EvCall (rq_method rq) p text (rq_args rq) (column_of rq) (rq_timeout rq))
     (emitted w (after rq w)) /\
  In (DEBUG, text) (log (after rq w)).
Proof.
  intros Hin Hq Hl.
  assert (Hr : renders_to (rq_query rq) w text) by (right; by split).
  destruct (query_op_in_service rq w p text Hin Hr) as (lg & Hrun & _ & Hlg).
  unfold after. rewrite Hrun. simpl. rewrite emitted_more. split.
  - simpl; auto.
  - rewrite (Hlg Hq). apply in_or_app. right. simpl; auto.
Qed.

(** C9.  Whatever a query operation returns or raises, every pool that
    existed before it is afterwards exactly as it was, its count of free
    connections included; a pool the operation created has all of its
    connections free; and the operation made as many releases as
    acquisitions on every pool. *)
Theorem connection_returned_on_every_exit rq w :
  (forall p po, pools w !! p = Some po -> pools (after rq w) !! p = Some po) /\
  (forall p po,
      pools w !! p = None -> pools (after rq w) !! p = Some po ->
      pool_free po = pool_size po) /\
  (forall p,
      occurrences (is_acquire p) (emitted w (after rq w)) =
      occurrences (is_release p) (emitted w (after rq w))).
Proof.
  query_outcomes rq w.
  1-5: split; [auto | split; [congruence |]]; intros q0;
       unfold occurrences; simpl; try reflexivity;
       destruct (Nat.eqb q0 p); reflexivity.
  - split; [| split].
    + intros q0 po Hq0. by apply lookup_app_l_Some.
    + intros q0 po Hnone Hsome.
      by rewrite (lookup_fresh_pool _ _ _ _ Hnone Hsome).
    + intros q0. unfold occurrences; simpl.
      destruct (Nat.eqb q0 (length (pools w))); reflexivity.
  - split; [| split].
    + intros q0 po Hq0. by apply lookup_app_l_Some.
    + intros q0 po Hnone Hsome.
      by rewrite (lookup_fresh_pool _ _ _ _ Hnone Hsome).
    + intros q0. reflexivity.
Qed.


(** C2.  What the code does on [close] with a pool in service: the pool is
    closed, but [_pool] keeps referring to it.  A query operation issued
    afterwards therefore skips [_connect], is refused by the closed pool
    and builds no new one. *)
Theorem close_keeps_closed_pool rq w p text :
  in_service w p ->
  renders_to (rq_query rq) (snd (close w)) text ->
  let w1 := snd (close w) in
  (exists po, pools w1 !! p = Some po /\ pool_closed po = true /\
              pool_free po = 0) /\
  _pool (self w1) = Some p /\
  fst (query_op rq w1) = Raise InterfaceError /\
  _pool (self (after rq w1)) = Some p /\
  pools (after rq w1) = pools w1 /\
  emitted w1 (after rq w1) = [].
Proof.
  intros (Hp & po & Hlk & Hopen & Hfree) Hr w1.
  assert (Hw1 : w1 = mkWorld (self w) (alter shut p (pools w)) (db w)
                       (log w ++ [(DEBUG, "Connection pool closed...")])
                       (trace w ++ [EvPoolClose p])).
  { unfold w1. by rewrite (close_with_pool w p Hp). }
  assert (Hlk1 : pools w1 !! p = Some (shut po)).
  { rewrite Hw1. simpl. by rewrite list_lookup_alter_eq, Hlk. }
  assert (Hp1 : _pool (self w1) = Some p) by (by rewrite Hw1).
  destruct (query_op_closed_pool rq w1 p (shut po) text Hp1 Hlk1
              (shut_closed po) Hr) as (Hres & Hs & Hps & Ht).
  repeat split; auto.
  - exists (shut po). repeat split; auto using shut_closed.
    unfold shut. by rewrite Hopen.
  - by rewrite Hs.
  - by apply emitted_nil.
Qed.

(** C3.  What the code does on a second [close] in a row: [_pool] still
    holds the closed pool, so the call takes the branch of the first one
    again; it calls [pool.close()] once more and logs the debug line, not
    the warning. *)
Theorem second_close_repeats_first w p :
  _pool (self w) = Some p ->
  let w1 := snd (close w) in
  let w2 := snd (close w1) in
  fst (close w) = Ok tt /\
  fst (close w1) = Ok tt /\
  log w2 = log w ++ [(DEBUG, "Connection pool closed...");
                     (DEBUG, "Connection pool closed...")] /\
  emitted w w2 = [EvPoolClose p; EvPoolClose p] /\
  ~ In (WARNING, "Connection pool already closed!")
       (drop (length (log w)) (log w2)).
Proof.
  intros Hp w1 w2.
  assert (Hw1 : close w = (Ok tt, w1) /\ _pool (self w1) = Some p /\
                log w1 = log w ++ [(DEBUG, "Connection pool closed...")] /\
                trace w1 = trace w ++ [EvPoolClose p]).
  { unfold w1. by rewrite (close_with_pool w p Hp). }
  destruct Hw1 as (Hc1 & Hp1 & Hl1 & Ht1).
  assert (Hw2 : close w1 = (Ok tt, w2) /\
                log w2 = log w1 ++ [(DEBUG, "Connection pool closed...")] /\
                trace w2 = trace w1 ++ [EvPoolClose p]).
  { unfold w2. by rewrite (close_with_pool w1 p Hp1). }
  destruct Hw2 as (Hc2 & Hl2 & Ht2).
  assert (Hlog : log w2 = log w ++ [(DEBUG, "Connection pool closed...");
                                    (DEBUG, "Connection pool closed...")]).
  { by rewrite Hl2, Hl1, <- app_assoc. }
  repeat split.
  - by rewrite Hc1.
  - by rewrite Hc2.
  - exact Hlog.
  - by apply (emitted_trans w w1 w2 _ _ Ht1 Ht2).
  - rewrite Hlog, drop_app_length. simpl. intros [H|[H|[]]]; discriminate.
Qed.

(** C3, the part the code keeps: [close] on an instance that never built a
    pool logs the warning and returns. *)
Lemma close_never_connected w :
  _pool (self w) = None ->
  fst (close w) = Ok tt /\
  log (snd (close w)) = log w ++ [(WARNING, "Connection pool already closed!")] /\
  emitted w (snd (close w)) = [].
Proof.
  intros Hp. rewrite (close_without_pool w Hp). simpl.
  repeat split. by apply emitted_nil.
Qed.

(** C4, as the code has it.  On a freshly constructed instance, its
    attributes as [__init__] left them: [create_tables] and [drop_tables]
    fail with
    [AttributeError] on the unbound metadata, before any library is called.
    A query operation whose query is not text and does not compile raises
    the error of the compiler and does nothing else.  One whose query is
    text or compiles asks asyncpg, as its first call outside, for a pool on
    the unbound connection string ([None]); granted a pool that is not
    empty, it returns or raises what the driver call answers; refused, it
    raises the error of asyncpg.  It ends in [NotInitializedError] only if
    asyncpg or the driver call raised just that. *)
Theorem before_init_no_guard w rq :
  self w = __init__ ->
  create_tables w = (Raise AttributeError, w) /\
  drop_tables w = (Raise AttributeError, w) /\
  (forall e,
      (forall s, rq_query rq <> QText s) ->
      fst (_literalquery (rq_query rq) true w) = Raise e ->
      query_op rq w = (Raise e, w)) /\
  (forall text,
      renders_to (rq_query rq) w text ->
      (exists evs, emitted w (after rq w) = EvCreatePool None :: evs) /\
      (forall n d,
          pg_create_pool E None (db w) = (Ok (S n), d) ->
          fst (query_op rq w) =
          fst (pg_call E (rq_method rq) text (rq_args rq) (column_of rq)
                 (rq_timeout rq) d)) /\
      (forall e d,
          pg_create_pool E None (db w) = (Raise e, d) ->
          fst (query_op rq w) = Raise e) /\
      (fst (query_op rq w) = Raise NotInitializedError ->
       fst (pg_create_pool E None (db w)) = Raise NotInitializedError \/
       exists d,
         fst (pg_call E (rq_method rq) text (rq_args rq) (column_of rq)
                (rq_timeout rq) d) = Raise NotInitializedError)).
Proof.
  intros Hself.
  assert (Hmd : _metadata (self w) = None) by (by rewrite Hself).
  assert (Hp : _pool (self w) = None) by (by rewrite Hself).
  assert (Hdsn : _dsn (self w) = None) by (by rewrite Hself).
  split; [| split; [| split]].
  - unfold create_tables, bind, get_self; simpl. by rewrite Hmd.
  - unfold drop_tables, bind, get_self; simpl. by rewrite Hmd.
  - intros e Hq Hl. rewrite query_op_split. unfold bind.
    destruct (rq_query rq) as [s|st|st]; [by destruct (Hq s) | |];
      simpl in *; unfold bind, logger, ret in *;
      destruct (sa_compile E st _dialect true) as [t|e']; simpl in Hl;
      congruence.
  - intros text Hr.
    destruct (renders_to_render _ _ _ Hr) as (w1' & Hrender & _).
    query_outcomes rq w; try congruence; rewrite ?Hdsn in *;
      assert (text0 = text) by congruence; subst text0.
    + match goal with
      | H : pg_create_pool _ _ _ = (Raise ?x, _) |- _ =>
          split; [eauto | split; [| split]];
          [ intros; congruence
          | intros e' d' Hcp'; congruence
          | intros Hni; left; rewrite H; simpl; congruence ]
      end.
    + split; [eauto | split; [| split]].
      * intros n' d' Hcp'. assert (d' = d) by congruence. by subst.
      * intros; congruence.
      * intros Hni. right. eauto.
    + split; [eauto | split; [| split]]; intros; congruence.
Qed.

(** C8.  [init] makes its two assignments and then runs [create_tables],
    once.  With an engine at hand (cached, or granted by SQLAlchemy for the
    new connection string) that is one [create_all] on the metadata given;
    a second [init] makes a second one. *)
Theorem init_creates_tables_once dsn md w e :
  _engine (self w) = Some e \/
  (_engine (self w) = None /\ sa_create_engine E (Some dsn) = Ok e) ->
  init dsn md w = create_tables (bound dsn md w) /\
  _dsn (self (snd (init dsn md w))) = Some dsn /\
  _metadata (self (snd (init dsn md w))) = Some md /\
  occurrences is_create_all (emitted w (snd (init dsn md w))) = 1 /\
  In (EvCreateAll md e) (emitted w (snd (init dsn md w))) /\
  forall dsn' md',
    occurrences is_create_all
      (emitted w (snd (init dsn' md' (snd (init dsn md w))))) = 2 /\
    In (EvCreateAll md' e)
      (emitted (snd (init dsn md w)) (snd (init dsn' md' (snd (init dsn md w))))).
Proof.
  intros He.
  destruct (init_frame dsn md w) as (Hdsn & Hmd & _).
  destruct (init_with_engine dsn md w e He) as (He1 & evs1 & Ht1 & Hc1 & Hin1).
  split; [apply init_bound|].
  repeat split; auto.
  - by rewrite (emitted_app _ _ _ Ht1).
  - by rewrite (emitted_app _ _ _ Ht1).
  - destruct (init_with_engine dsn' md' (snd (init dsn md w)) e (or_introl He1))
      as (_ & evs2 & Ht2 & Hc2 & _).
    rewrite (emitted_trans _ _ _ _ _ Ht1 Ht2), occurrences_app. lia.
  - destruct (init_with_engine dsn' md' (snd (init dsn md w)) e (or_introl He1))
      as (_ & evs2 & Ht2 & _ & Hin2).
    by rewrite (emitted_app _ _ _ Ht2).
Qed.

(** C10.  The engine is made on the first need and kept.  After an [init]
    that made it from its connection string, and whatever is done with the
    instance next, a second [init] with another connection string binds the
    new string but runs its DDL on the engine of the first, and so do
    [create_tables] and [drop_tables] afterwards; SQLAlchemy is never asked
    for an engine again. *)
Theorem engine_cached_for_lifetime d1 m1 cs d2 m2 w e1 :
  _engine (self w) = None ->
  sa_create_engine E (Some d1) = Ok e1 ->
  let w1 := snd (init d1 m1 w) in
  let w2 := api_run cs w1 in
  let w3 := snd (init d2 m2 w2) in
  _engine (self w1) = Some e1 /\
  _engine (self w2) = Some e1 /\
  _engine (self w3) = Some e1 /\
  _dsn (self w3) = Some d2 /\
  emitted w2 w3 = [EvCreateAll m2 e1] /\
  emitted w3 (snd (create_tables w3)) = [EvCreateAll m2 e1] /\
  emitted w3 (snd (drop_tables w3)) = [EvDropAll m2 e1] /\
  occurrences is_create_engine (emitted w1 w3) = 0.
Proof.
  intros He Hok w1 w2 w3.
  destruct (init_with_engine d1 m1 w e1 (or_intror (conj He Hok)))
    as (He1 & _).
  fold w1 in He1.
  destruct (api_run_engine cs w1 e1 He1) as (He2 & evs2 & Ht2 & Hc2).
  fold w2 in He2, Ht2.
  assert (Hw3 : w3 = mkWorld (self (bound d2 m2 w2)) (pools w2)
                       (snd (sa_create_all E m2 e1 (db w2)))
                       (log w2 ++ ddl_log Create (fst (sa_create_all E m2 e1 (db w2))))
                       (trace w2 ++ [EvCreateAll m2 e1])).
  { unfold w3. rewrite init_bound.
    change (create_tables (bound d2 m2 w2))
      with (schema_op Create (bound d2 m2 w2)).
    by rewrite (schema_op_cached Create (bound d2 m2 w2) m2 e1 eq_refl He2). }
  assert (He3 : _engine (self w3) = Some e1) by (by rewrite Hw3).
  assert (Hm3 : _metadata (self w3) = Some m2) by (by rewrite Hw3).
  assert (Ht3 : trace w3 = trace w2 ++ [EvCreateAll m2 e1]) by (by rewrite Hw3).
  repeat split; auto.
  - by rewrite Hw3.
  - by apply emitted_app.
  - change (create_tables w3) with (schema_op Create w3).
    rewrite (schema_op_cached Create w3 m2 e1 Hm3 He3). simpl.
    by rewrite emitted_more.
  - change (drop_tables w3) with (schema_op Drop w3).
    rewrite (schema_op_cached Drop w3 m2 e1 Hm3 He3). simpl.
    by rewrite emitted_more.
  - rewrite (emitted_trans _ _ _ _ _ Ht2 Ht3), occurrences_app, Hc2.
    reflexivity.
Qed.

End Claims.

(** ** The literalization path *)

Section LiteralPath.
Variable String_literal_processor : Dialect -> string -> escaped.
Variable decode : list Byte.byte -> string -> result string.
Variable int_max_str_digits : nat.
Variable stock_literal_processor : string -> Dialect -> pyval -> result string.
Variable B : Env.





End LiteralPath.

(** * Further properties of the module *)

Section Behaviour.
Context {E : Env}.
Implicit Types (w : @World E) (rq : @request E) (q : @query E) (p : nat).

(** X1.  [_literalquery] is confined to the logger.  It leaves the
    instance, the pools and the database alone and makes no call to the
    driver; when the statement compiles it logs the text once, at debug
    level, and returns it; when the compilation raises, nothing is logged.
    A [sqlalchemy.orm.Query] is treated as its statement. *)
Theorem literalquery_only_logs q (literal_binds : bool) w :
  self (snd (_literalquery q literal_binds w)) = self w /\
  pools (snd (_literalquery q literal_binds w)) = pools w /\
  db (snd (_literalquery q literal_binds w)) = db w /\
  trace (snd (_literalquery q literal_binds w)) = trace w /\
  log (snd (_literalquery q literal_binds w)) =
    match fst (_literalquery q literal_binds w) with
    | Ok text => log w ++ [(DEBUG, text)]
    | Raise _ => log w
    end /\
  (forall st, q = QOrm st ->
     _literalquery q literal_binds w = _literalquery (QExpr st) literal_binds w) /\
  (forall st, statement_of q = Some st ->
     fst (_literalquery q literal_binds w) =
     sa_compile E st (@_dialect E) literal_binds).
Proof.
  destruct q as [s|st|st]; simpl; unfold bind, logger, ret, throw; simpl.
  - repeat split; auto; intros; discriminate.
  - destruct (sa_compile E st (@_dialect E) literal_binds) as [text|e] eqn:Hc;
      simpl; repeat split; auto; intros st' Hst; inversion Hst; subst;
      simpl; unfold bind, logger, ret; by rewrite Hc.
  - destruct (sa_compile E st (@_dialect E) literal_binds) as [text|e] eqn:Hc;
      simpl; repeat split; auto; intros st' Hst; inversion Hst; subst;
      simpl; unfold bind, logger, ret; by rewrite Hc.
Qed.

(** X2.  A structured query that does not compile stops the operation at
    once: the error of the compiler is raised and the world is as before,
    so no pool is built for it and the driver is not reached. *)
Theorem render_failure_stops_operation rq w e :
  (forall s, rq_query rq <> QText s) ->
  fst (_literalquery (rq_query rq) true w) = Raise e ->
  query_op rq w = (Raise e, w).
Proof.
  intros Hq Hl. rewrite query_op_split. unfold bind.
  destruct (rq_query rq) as [s|st|st]; [by destruct (Hq s) | |];
    simpl in *; unfold bind, logger, ret in *;
    destruct (sa_compile E st (@_dialect E) true) as [text|e']; simpl in Hl;
    congruence.
Qed.

(** X3.  When asyncpg cannot build the pool, the query operation raises
    that error, [_pool] stays unset and no pool object exists; the failure
    is not remembered, and the next query operation asks for the pool
    again. *)
Theorem failed_connect_is_retried rq w text e d :
  _pool (self w) = None ->
  renders_to (rq_query rq) w text ->
  pg_create_pool E (_dsn (self w)) (db w) = (Raise e, d) ->
  fst (query_op rq w) = Raise e /\
  _pool (self (after rq w)) = None /\
  pools (after rq w) = pools w /\
  db (after rq w) = d /\
  emitted w (after rq w) = [EvCreatePool (_dsn (self w))] /\
  forall rq' text' n d',
    renders_to (rq_query rq') (after rq w) text' ->
    pg_create_pool E (_dsn (self w)) d = (Ok n, d') ->
    _pool (self (after rq' (after rq w))) = Some (length (pools w)) /\
    pools (after rq' (after rq w)) =
      pools w ++ [mkPool (_dsn (self w)) n n false].
Proof.
  intros Hp Hr Hcp.
  destruct (renders_to_render _ _ _ Hr) as (w1' & Hrender & _).
  assert (H : fst (query_op rq w) = Raise e /\
              self (after rq w) = self w /\
              pools (after rq w) = pools w /\
              db (after rq w) = d /\
              emitted w (after rq w) = [EvCreatePool (_dsn (self w))]).
  { query_outcomes rq w; try congruence.
    assert (e0 = e /\ d0 = d) as [-> ->] by (split; congruence).
    repeat split; auto. }
  destruct H as (Hres & Hs & Hps & Hdb & Hev).
  repeat split; auto; try (by rewrite Hs).
  - intros. 
    destruct (query_op_first_use rq' (after rq w) text' n d') as (Hs2 & _);
      rewrite ?Hs, ?Hdb; auto.
    rewrite Hs2. simpl. by rewrite Hps.
  - destruct (query_op_first_use rq' (after rq w) text' n d') as (_ & Hps2 & _);
      rewrite ?Hs, ?Hdb; auto.
    rewrite Hps2. by rewrite Hps, Hs.
Qed.

(** X4.  A pool in service stays in service through any sequence of query
    operations, whatever each of them returned or raised: a failed query
    does not spoil the pool for the next. *)
Theorem in_service_preserved (rqs : list request) w p :
  in_service w p ->
  in_service (run_requests rqs w) p.
Proof.
  intros (Hp & Hpo).
  destruct (run_requests_with_pool rqs w p Hp) as (Hs & Hps & _).
  unfold in_service. by rewrite Hs, Hps.
Qed.

(** X5.  [connection] used directly, around any block: on a pool in
    service the block runs once, on a connection of that pool and with one
    connection fewer free; what the block returns or raises is passed on
    unchanged; and the release comes after the block, whichever way it
    ended. *)
Theorem connection_scopes_any_block {A} (body : Connection -> M A) w p :
  in_service w p ->
  fst (connection body w) = fst (body (mkConnection p) (acquired p w)) /\
  snd (connection body w) =
    released p (snd (body (mkConnection p) (acquired p w))) /\
  (exists po, pools w !! p = Some po /\
              pools (acquired p w) !! p = Some (take po) /\
              S (pool_free (take po)) = pool_free po).
Proof.
  intros (Hp & po & Hlk & Hopen & Hfree).
  unfold connection, bind, get_self; simpl. rewrite Hp; simpl. rewrite Hp.
  unfold async_with, bind, pool_acquire. rewrite Hlk, Hopen.
  destruct (pool_free po) as [|k] eqn:Hk; [done|].
  unfold finally, pool_release, acquired, released; simpl.
  destruct (body (mkConnection p) _) as [r w1]; simpl.
  repeat split. exists po. repeat split; auto.
  - unfold acquired; simpl. by rewrite list_lookup_alter_eq, Hlk.
  - unfold take; simpl. by rewrite Hk.
Qed.

(** X6.  [connection] on an instance whose pool was closed: the
    acquisition is refused and the block is never entered, so the world is
    left as it was. *)
Theorem connection_refused_skips_block {A} (body : Connection -> M A) w p po :
  _pool (self w) = Some p ->
  pools w !! p = Some po ->
  pool_closed po = true ->
  connection body w = (Raise InterfaceError, w).
Proof.
  intros Hp Hlk Hc.
  unfold connection, bind, get_self; simpl. rewrite Hp; simpl. rewrite Hp.
  unfold async_with, bind, pool_acquire. by rewrite Hlk, Hc.
Qed.

Lemma connect_granted w n d :
  pg_create_pool E (_dsn (self w)) (db w) = (Ok n, d) ->
  _connect w =
  (Ok tt,
   mkWorld (with_pool (self w) (length (pools w)))
     (pools w ++ [mkPool (_dsn (self w)) n n false]) d
     (log w ++ [connected])
     (trace w ++ [EvCreatePool (_dsn (self w))])).
Proof.
  intros Hcp.
  unfold _connect, create_pool, bind, get_self, modify_self, logger,
    set_self, set_db, set_pools, add_event, add_log; simpl.
  by rewrite Hcp.
Qed.

(** X7.  [_connect] does not look at [_pool]: called on an instance that
    already holds a pool it stores a new one in its place, and the pool it
    replaces is neither closed nor touched, though the instance no longer
    refers to it. *)
Theorem connect_replaces_without_closing w p po n d :
  _pool (self w) = Some p ->
  pools w !! p = Some po ->
  pg_create_pool E (_dsn (self w)) (db w) = (Ok n, d) ->
  fst (_connect w) = Ok tt /\
  _pool (self (snd (_connect w))) = Some (length (pools w)) /\
  length (pools w) <> p /\
  pools (snd (_connect w)) !! p = Some po /\
  pools (snd (_connect w)) !! length (pools w) =
    Some (mkPool (_dsn (self w)) n n false) /\
  emitted w (snd (_connect w)) = [EvCreatePool (_dsn (self w))].
Proof.
  intros Hp Hlk Hcp. rewrite (connect_granted w n d Hcp). simpl.
  pose proof (lookup_lt_Some _ _ _ Hlk) as Hlt.
  repeat split.
  - lia.
  - by apply lookup_app_l_Some.
  - rewrite lookup_app_r by lia. by rewrite Nat.sub_diag.
  - by rewrite emitted_more.
Qed.

(** X8.  After [close] the instance can be put back to work by an explicit
    [_connect]: the new pool is in service and a query operation is served
    on it. *)
Theorem reconnect_after_close rq w p text n d :
  in_service w p ->
  pg_create_pool E (_dsn (self w)) (db w) = (Ok (S n), d) ->
  renders_to (rq_query rq) (snd (_connect (snd (close w)))) text ->
  let w2 := snd (_connect (snd (close w))) in
  fst (_connect (snd (close w))) = Ok tt /\
  in_service w2 (length (pools w)) /\
  fst (query_op rq w2) =
    fst (pg_call E (rq_method rq) text (rq_args rq) (column_of rq)
           (rq_timeout rq) d) /\
  emitted w2 (after rq w2) =
    [EvAcquire (length (pools w));
     EvCall (rq_method rq) (length (pools w)) text (rq_args rq)
       (column_of rq) (rq_timeout rq);
     EvRelease (length (pools w))].
Proof.
  intros (Hp & po & Hlk & Hopen & Hfree) Hcp Hr w2.
  assert (Hw1 : snd (close w) =
                mkWorld (self w) (alter shut p (pools w)) (db w)
                  (log w ++ [(DEBUG, "Connection pool closed...")])
                  (trace w ++ [EvPoolClose p])).
  { by rewrite (close_with_pool w p Hp). }
  assert (Hc : _connect (snd (close w)) =
               (Ok tt,
                mkWorld (with_pool (self w) (length (pools w)))
                  (alter shut p (pools w) ++ [mkPool (_dsn (self w)) (S n) (S n) false])
                  d
                  ((log w ++ [(DEBUG, "Connection pool closed...")]) ++ [connected])
                  ((trace w ++ [EvPoolClose p]) ++ [EvCreatePool (_dsn (self w))]))).
  { rewrite (connect_granted (snd (close w)) (S n) d).
    - rewrite Hw1. simpl. by rewrite length_alter.
    - by rewrite Hw1. }
  assert (Hin : in_service w2 (length (pools w))).
  { unfold w2. rewrite Hc. split; [reflexivity|]. simpl.
    exists (mkPool (_dsn (self w)) (S n) (S n) false).
    repeat split; auto.
    rewrite lookup_app_r by (rewrite length_alter; lia).
    by rewrite length_alter, Nat.sub_diag. }
  destruct (query_op_in_service rq w2 _ text Hin Hr) as (lg & Hq & _).
  assert (Hdb : db w2 = d) by (unfold w2; by rewrite Hc).
  split; [by rewrite Hc | split; [exact Hin |]].
  unfold after. rewrite Hq. simpl. rewrite emitted_more, Hdb. by split.
Qed.

(** X9.  [init] is not undone by a failure: when it raises, whether in
    the making of the engine or in the DDL, the connection string and the
    metadata it was given are bound all the same, the success line is not
    logged, and the pool side is untouched. *)
Theorem init_failure_keeps_bindings dsn md w e :
  fst (init dsn md w) = Raise e ->
  _dsn (self (snd (init dsn md w))) = Some dsn /\
  _metadata (self (snd (init dsn md w))) = Some md /\
  log (snd (init dsn md w)) = log w /\
  _pool (self (snd (init dsn md w))) = _pool (self w) /\
  pools (snd (init dsn md w)) = pools w.
Proof.
  rewrite init_bound.
  pose proof (schema_cases Create (bound dsn md w)) as H. simpl in H.
  inversion H as [Hmd Heq|md' x Hmd He Hx Heq|md' e' Hmd He Heq
                 |md' e' Hmd He Hx Heq]; intros Hres;
    try (simpl in Hmd; discriminate Hmd); simpl in *.
  - repeat split.
  - rewrite Hres. simpl. rewrite app_nil_r. repeat split.
  - rewrite Hres. simpl. rewrite app_nil_r. repeat split.
Qed.

(** X10.  A failure to make the engine is not cached.  When
    [create_engine] raises during a first [init], [_engine] stays unset and
    no DDL is attempted; a later [init] whose connection string SQLAlchemy
    accepts makes the engine from that later string and runs its DDL on
    it. *)
Theorem engine_failure_not_cached d1 m1 d2 m2 w x e2 :
  _engine (self w) = None ->
  sa_create_engine E (Some d1) = Raise x ->
  sa_create_engine E (Some d2) = Ok e2 ->
  let w1 := snd (init d1 m1 w) in
  fst (init d1 m1 w) = Raise x /\
  _engine (self w1) = None /\
  emitted w w1 = [EvCreateEngine (Some d1)] /\
  _engine (self (snd (init d2 m2 w1))) = Some e2 /\
  emitted w1 (snd (init d2 m2 w1)) =
    [EvCreateEngine (Some d2); EvCreateAll m2 e2].
Proof.
  intros He Hx Hok w1.
  assert (H1 : init d1 m1 w =
               (Raise x,
                mkWorld (self (bound d1 m1 w)) (pools w) (db w) (log w)
                  (trace w ++ [EvCreateEngine (Some d1)]))).
  { rewrite init_bound.
    change (create_tables (bound d1 m1 w))
      with (schema_op Create (bound d1 m1 w)).
    pose proof (schema_cases Create (bound d1 m1 w)) as H.
    inversion H; simpl in *; congruence. }
  assert (He1 : _engine (self w1) = None) by (unfold w1; by rewrite H1).
  assert (H2 : init d2 m2 w1 = schema_op Create (bound d2 m2 w1))
    by apply init_bound.
  rewrite (schema_op_new Create (bound d2 m2 w1) m2 e2 eq_refl He1 Hok) in H2.
  repeat split.
  - by rewrite H1.
  - exact He1.
  - unfold w1. rewrite H1. simpl. by rewrite emitted_more.
  - by rewrite H2.
  - rewrite H2. simpl. by rewrite emitted_more.
Qed.

(** X11.  A DDL call that raises: [create_tables] and [drop_tables] pass
    the error on and do not log their success line, and the engine they
    ran on, even one made for this very call, stays cached. *)
Theorem ddl_failure_keeps_engine (k : ddl) w md e x :
  _metadata (self w) = Some md ->
  _engine (self w) = Some e \/
  (_engine (self w) = None /\ sa_create_engine E (_dsn (self w)) = Ok e) ->
  fst (ddl_answer k md e (db w)) = Raise x ->
  fst (schema_op k w) = Raise x /\
  _engine (self (snd (schema_op k w))) = Some e /\
  log (snd (schema_op k w)) = log w /\
  In (ddl_event k md e) (emitted w (snd (schema_op k w))).
Proof.
  intros Hmd [He|[He Hok]] Hx.
  - rewrite (schema_op_cached k w md e Hmd He). simpl.
    rewrite Hx, emitted_more. simpl. rewrite app_nil_r. repeat split; auto.
  - rewrite (schema_op_new k w md e Hmd He Hok). simpl.
    rewrite Hx, emitted_more. simpl. rewrite app_nil_r. repeat split; auto.
Qed.

(** X12.  [close] is about the pool only: it leaves the connection string,
    the metadata, the engine and the database as they are, and the DDL
    operations go on working afterwards on the cached engine. *)
Theorem close_leaves_schema_side w md e :
  _metadata (self w) = Some md ->
  _engine (self w) = Some e ->
  let w1 := snd (close w) in
  self w1 = self w /\
  db w1 = db w /\
  emitted w1 (snd (create_tables w1)) = [EvCreateAll md e] /\
  emitted w1 (snd (drop_tables w1)) = [EvDropAll md e].
Proof.
  intros Hmd He w1.
  assert (Hw1 : self w1 = self w /\ db w1 = db w).
  { unfold w1. destruct (_pool (self w)) as [p|] eqn:Hp.
    - by rewrite (close_with_pool w p Hp).
    - by rewrite (close_without_pool w Hp). }
  destruct Hw1 as (Hs & Hd).
  assert (Hmd1 : _metadata (self w1) = Some md) by (by rewrite Hs).
  assert (He1 : _engine (self w1) = Some e) by (by rewrite Hs).
  repeat split; auto.
  - change (create_tables w1) with (schema_op Create w1).
    rewrite (schema_op_cached Create w1 md e Hmd1 He1). simpl.
    by rewrite emitted_more.
  - change (drop_tables w1) with (schema_op Drop w1).
    rewrite (schema_op_cached Drop w1 md e Hmd1 He1). simpl.
    by rewrite emitted_more.
Qed.

Lemma at_rest_shut (po : Pool) : at_rest po -> at_rest (shut po).
Proof.
  unfold at_rest, shut. destruct (pool_closed po) eqn:Hc; simpl; auto.
  by rewrite Hc.
Qed.

Lemma tidy_query rq w : tidy w -> tidy (after rq w).
Proof.
  intros [Hrest Href].
  assert (Hnew : forall n dsn p po,
             (pools w ++ [mkPool dsn n n false]) !! p = Some po -> at_rest po).
  { intros n dsn p po Hlk.
    apply lookup_app_Some in Hlk as [Hl|[_ Hr]]; [by eapply Hrest|].
    destruct (p - length (pools w)) as [|j]; simpl in Hr; [|done].
    injection Hr as <-. reflexivity. }
  query_outcomes rq w;
    (split; simpl; rewrite ?Hself, ?Hpools; [by eauto |]); intros p0 Hp0;
    first [ by apply Href
          | injection Hp0 as <-; rewrite length_app; simpl; lia ].
Qed.

Lemma tidy_schema (k : ddl) w : tidy w -> tidy (snd (schema_op k w)).
Proof.
  intros [Hrest Href].
  destruct (schema_frame k w) as (_ & _ & Hpool & Hpools & _).
  unfold tidy. by rewrite Hpool, Hpools.
Qed.

Lemma tidy_close w : tidy w -> tidy (snd (close w)).
Proof.
  intros [Hrest Href]. destruct (_pool (self w)) as [p|] eqn:Hp.
  - rewrite (close_with_pool w p Hp). split; simpl.
    + intros q0 po Hlk. destruct (decide (q0 = p)) as [->|Hne].
      * rewrite list_lookup_alter_eq in Hlk.
        destruct (pools w !! p) as [po0|] eqn:Hp0; simpl in Hlk; [|done].
        injection Hlk as <-. apply at_rest_shut. by eapply Hrest.
      * rewrite list_lookup_alter_ne in Hlk by done. by eapply Hrest.
    + intros q0 Hq0. rewrite length_alter. apply Href. congruence.
  - rewrite (close_without_pool w Hp). split; simpl; [exact Hrest|].
    intros q0 Hq0. congruence.
Qed.

Lemma tidy_step (c : api_call) w : tidy w -> tidy (api_step c w).
Proof.
  intros Ht. destruct c as [dsn md| | |rq|]; simpl.
  - rewrite init_bound. apply (tidy_schema Create (bound dsn md w)).
    exact Ht.
  - apply (tidy_schema Create w Ht).
  - apply (tidy_schema Drop w Ht).
  - by apply tidy_query.
  - by apply tidy_close.
Qed.

(** X13.  No connection is left checked out.  Starting from an instance
    whose pools are at rest, after any sequence of public calls, in any
    order and whatever each returned or raised, every pool is at rest again
    (all its connections free, or closed), and [_pool] refers to a pool
    that exists. *)
Theorem no_connection_left_out (cs : list api_call) w :
  tidy w -> tidy (api_run cs w).
Proof.
  revert w. induction cs as [|c cs IH]; intros w Ht; simpl; [exact Ht|].
  apply IH. by apply tidy_step.
Qed.

Lemma pool_budget_step (c : api_call) w :
  pool_budget (api_step c w) = pool_budget w.
Proof.
  unfold pool_budget. destruct c as [dsn md| | |rq|]; simpl.
  - destruct (init_frame dsn md w) as (_ & _ & -> & -> & _). reflexivity.
  - destruct (schema_frame Create w) as (_ & _ & Hp & Hps & _).
    simpl in Hp, Hps. by rewrite Hp, Hps.
  - destruct (schema_frame Drop w) as (_ & _ & Hp & Hps & _).
    simpl in Hp, Hps. by rewrite Hp, Hps.
  - query_outcomes rq w; rewrite ?Hself, ?Hpools, ?length_app; simpl;
      repeat match goal with
             | H : _pool (self w) = _ |- _ => rewrite H
             end; simpl; lia.
  - destruct (_pool (self w)) as [p|] eqn:Hp.
    + rewrite (close_with_pool w p Hp). simpl. by rewrite length_alter, Hp.
    + rewrite (close_without_pool w Hp). simpl. by rewrite Hp.
Qed.

Lemma api_step_keeps_pool (c : api_call) w p :
  _pool (self w) = Some p ->
  _pool (self (api_step c w)) = Some p /\
  exists evs, trace (api_step c w) = trace w ++ evs /\
              occurrences is_create_pool evs = 0.
Proof.
  intros Hp. destruct c as [dsn md| | |rq|]; simpl.
  - destruct (init_frame dsn md w) as (_ & _ & -> & _ & evs & Ht & Hc & _).
    eauto.
  - destruct (schema_frame Create w) as (_ & _ & Hq & _ & evs & Ht & Hc & _).
    simpl in Hq. rewrite Hq. eauto.
  - destruct (schema_frame Drop w) as (_ & _ & Hq & _ & evs & Ht & Hc & _).
    simpl in Hq. rewrite Hq. eauto.
  - destruct (after_with_pool rq w p Hp) as (-> & _ & evs & Ht & Hc). eauto.
  - destruct (close_frame w) as (_ & _ & _ & -> & evs & Ht & _ & Hc). eauto.
Qed.

Lemma pool_budget_run (cs : list api_call) w :
  pool_budget (api_run cs w) = pool_budget w.
Proof.
  revert w. induction cs as [|c cs IH]; intros w; [done|].
  change (pool_budget (api_run cs (api_step c w)) = pool_budget w).
  rewrite IH. apply pool_budget_step.
Qed.

Lemma api_run_keeps_pool (cs : list api_call) w p :
  _pool (self w) = Some p ->
  _pool (self (api_run cs w)) = Some p /\
  exists evs, trace (api_run cs w) = trace w ++ evs /\
              occurrences is_create_pool evs = 0.
Proof.
  revert w. induction cs as [|c cs IH]; intros w Hp.
  - split; auto. exists []. simpl. by rewrite app_nil_r.
  - destruct (api_step_keeps_pool c w p Hp) as (Hp1 & evs1 & Ht1 & Hc1).
    destruct (IH (api_step c w) Hp1) as (Hp2 & evs2 & Ht2 & Hc2).
    change (api_run (c :: cs) w) with (api_run cs (api_step c w)).
    split; auto. exists (evs1 ++ evs2). split.
    + by rewrite Ht2, Ht1, app_assoc.
    + rewrite occurrences_app. lia.
Qed.

(** X14.  One pool for the life of an instance whose public calls are
    made one at a time, each one over before the next begins.  Once [_pool]
    is set, no sequence of such calls ([init], DDL, queries, [close], in
    any order) changes it, adds a pool or asks asyncpg for one; and
    starting without a pool, any such sequence creates one pool at most. *)
Theorem pool_reference_never_changes (cs : list api_call) w :
  (forall p, _pool (self w) = Some p ->
     _pool (self (api_run cs w)) = Some p /\
     length (pools (api_run cs w)) = length (pools w) /\
     occurrences is_create_pool (emitted w (api_run cs w)) = 0) /\
  length (pools (api_run cs w)) <= S (length (pools w)).
Proof.
  pose proof (pool_budget_run cs w) as Hb.
  unfold pool_budget in Hb. split.
  - intros p Hp. destruct (api_run_keeps_pool cs w p Hp) as (Hp' & evs & Ht & Hc).
    rewrite Hp', Hp in Hb. repeat split; auto; [lia|].
    by rewrite (emitted_app _ _ _ Ht).
  - destruct (_pool (self (api_run cs w))), (_pool (self w)); lia.
Qed.

Lemma api_step_dsn (c : api_call) w :
  is_init c = false ->
  _dsn (self (api_step c w)) = _dsn (self w).
Proof.
  destruct c as [dsn md| | |rq|]; simpl; intros Hc; try discriminate.
  - by destruct (schema_frame Create w) as (H & _).
  - by destruct (schema_frame Drop w) as (H & _).
  - by destruct (after_frame rq w) as (H & _).
  - by destruct (close_frame w) as (H & _).
Qed.

(** X15.  [__repr__] shows the connection string of the latest [init]:
    from that call on, whether it succeeded or not, and through any DDL,
    queries and [close] that follow, it answers that string, unaltered. *)
Theorem repr_is_latest_dsn dsn md (cs : list api_call) w :
  forallb (fun c => negb (is_init c)) cs = true ->
  __repr__ (self (api_run cs (snd (init dsn md w)))) = Some dsn.
Proof.
  intros Hcs.
  assert (H : forall w0, _dsn (self (api_run cs w0)) = _dsn (self w0)).
  { induction cs as [|c cs IH]; intros w0; [done|].
    simpl in Hcs. apply andb_prop in Hcs as [Hc Hrest].
    change (api_run (c :: cs) w0) with (api_run cs (api_step c w0)).
    rewrite (IH Hrest).
    apply api_step_dsn. by destruct (is_init c). }
  unfold __repr__. rewrite H.
  by destruct (init_frame dsn md w) as (Hd & _).
Qed.

End Behaviour.

Section LiteralFailure.
Variable super_processor : Dialect -> string -> escaped.
Variable decode : list Byte.byte -> string -> result string.
Variable int_max_str_digits : nat.

(** X16.  The literal processor raises in two situations and no other:
    [str(value)] raises, on a value that is not a string (an integer past
    the digit limit, an object whose [__str__] fails); or the value is no
    integer, the stock escaper answered its text in bytes, and decoding
    them with the encoding of the dialect raises.  The error is the one
    raised there. *)
Theorem literal_processor_raises (dialect : Dialect) (value : pyval) (e : exn) :
  StringLiteral.literal_processor super_processor decode int_max_str_digits
    dialect value = Raise e <->
  (isinstance_str value = false /\
   py_str int_max_str_digits value = Raise e) \/
  (isinstance_int value = false /\
   exists text raw,
     text_form int_max_str_digits value = Ok text /\
     super_processor dialect text = Bytes raw /\
     decode raw (encoding dialect) = Raise e).
Proof.
  unfold StringLiteral.literal_processor.
  destruct value as [z|b|z shown|s|text|e0]; simpl.
  - split; [by left | intros [[_ H]|[H _]]; [exact H | discriminate]].
  - split; [by left | intros [[_ H]|[H _]]; [exact H | discriminate]].
  - split; [by left | intros [[_ H]|[H _]]; [exact H | discriminate]].
  - destruct (super_processor dialect s) as [t|raw] eqn:Hs.
    + split; [discriminate|].
      intros [[H _]|(_ & t' & raw & Ht & Hb & _)]; [discriminate|].
      injection Ht as <-. congruence.
    + split.
      * intros H. right. split; [reflexivity|]. by exists s, raw.
      * intros [[H _]|(_ & t' & raw' & Ht & Hb & Hd)]; [discriminate|].
        injection Ht as <-. congruence.
  - destruct (super_processor dialect text) as [t|raw] eqn:Hs.
    + split; [discriminate|].
      intros [[_ H]|(_ & t' & raw & Ht & Hb & _)]; [discriminate|].
      injection Ht as <-. congruence.
    + split.
      * intros H. right. split; [reflexivity|]. by exists text, raw.
      * intros [[_ H]|(_ & t' & raw' & Ht & Hb & Hd)]; [discriminate|].
        injection Ht as <-. congruence.
  - split; [by left|].
    intros [[_ H]|(_ & t' & raw & Ht & _)]; [exact H | discriminate].
Qed.

End LiteralFailure.

(** * The properties on the small environment *)

Lemma warm_in_service : in_service warm 0.
Proof.
  split; [reflexivity|].
  exists (mkPool (Some demo_dsn) 10 10 false).
  repeat split; try reflexivity. simpl. lia.
Defined.

Lemma query_op_delegates_witness :
  in_service warm 0 /\
  renders_to (rq_query delete_42) warm "DELETE FROM t WHERE id = 42" /\
  emitted warm (after delete_42 warm) =
    [EvAcquire 0;
     EvCall Execute 0 "DELETE FROM t WHERE id = 42" [] None None;
     EvRelease 0].
Proof.
  assert (Hr : renders_to (rq_query delete_42) warm
                 "DELETE FROM t WHERE id = 42").
  { right. split; [intros s; discriminate | reflexivity]. }
  split; [exact warm_in_service | split; [exact Hr |]].
  exact (proj1 (query_op_delegates delete_42 warm 0
                  "DELETE FROM t WHERE id = 42" warm_in_service Hr)).
Defined.

Lemma literal_text_is_executed_witness :
  In (EvCall (E:=demo) Execute 0 "DELETE FROM t WHERE id = 42" [] None None)
     (emitted warm (after delete_42 warm)) /\
  In (DEBUG, "DELETE FROM t WHERE id = 42") (log (after delete_42 warm)).
Proof.
  apply (literal_text_is_executed delete_42 warm 0
           "DELETE FROM t WHERE id = 42" warm_in_service).
  - intros s; discriminate.
  - reflexivity.
Defined.

Lemma connection_returned_witness :
  fst (query_op select_failing warm) = Raise (External "DivisionByZeroError") /\
  pools (after select_failing warm) !! 0 =
    Some (mkPool (Some demo_dsn) 10 10 false) /\
  occurrences (is_acquire 0) (emitted warm (after select_failing warm)) = 1.
Proof.
  split; [reflexivity | split; [| reflexivity]].
  apply (proj1 (connection_returned_on_every_exit select_failing warm)).
  reflexivity.
Defined.


Lemma close_keeps_closed_pool_witness :
  in_service warm 0 /\
  _pool (self (snd (close warm))) = Some 0 /\
  fst (query_op select_one (snd (close warm))) = Raise InterfaceError /\
  pools (after select_one (snd (close warm))) = pools (snd (close warm)).
Proof.
  pose proof (close_keeps_closed_pool select_one warm 0 "SELECT 1"
                warm_in_service (or_introl eq_refl)) as H.
  cbv zeta in H.
  destruct H as (_ & H2 & H3 & _ & H5 & _).
  split; [exact warm_in_service | repeat split; assumption].
Defined.

Lemma second_close_repeats_first_witness :
  _pool (self warm) = Some 0 /\
  fst (close (snd (close warm))) = Ok tt /\
  log (snd (close (snd (close warm)))) =
    log warm ++ [(DEBUG, "Connection pool closed...");
                 (DEBUG, "Connection pool closed...")].
Proof.
  pose proof (second_close_repeats_first warm 0 eq_refl) as H.
  cbv zeta in H.
  destruct H as (_ & H2 & H3 & _).
  split; [reflexivity | split; assumption].
Defined.

(** C4 fails on the code: on a fresh instance [create_tables] raises
    [AttributeError], and a query is served (this driver grants a pool for
    the unbound connection string); neither ends in [NotInitializedError]. *)
Lemma not_initialized_error_counterexample :
  fst (create_tables (E:=demo) fresh) = Raise AttributeError /\
  fst (create_tables (E:=demo) fresh) <> Raise NotInitializedError /\
  fst (drop_tables (E:=demo) fresh) <> Raise NotInitializedError /\
  fst (query_op select_one fresh) = Ok "SELECT 1" /\
  fst (query_op select_one fresh) <> Raise NotInitializedError.
Proof.
  repeat split; try reflexivity; vm_compute; discriminate.
Qed.

Lemma before_init_no_guard_witness :
  self fresh = __init__ /\
  create_tables (E:=demo) fresh = (Raise AttributeError, fresh) /\
  (exists evs, emitted fresh (after select_one fresh) = EvCreatePool None :: evs) /\
  fst (query_op select_one fresh) = Ok "SELECT 1".
Proof.
  pose proof (before_init_no_guard fresh select_one eq_refl) as H.
  destruct H as (H1 & _ & _ & H4).
  destruct (H4 "SELECT 1" (or_introl eq_refl)) as (H5 & H6 & _).
  split; [reflexivity | split; [exact H1 | split; [exact H5 |]]].
  rewrite (H6 9 0 eq_refl). reflexivity.
Defined.


Lemma init_creates_tables_once_witness :
  occurrences is_create_all
    (emitted fresh (snd (init (E:=demo) demo_dsn demo_metadata fresh))) = 1 /\
  occurrences is_create_all
    (emitted fresh
       (snd (init (E:=demo) demo_dsn demo_metadata
               (snd (init (E:=demo) demo_dsn demo_metadata fresh))))) = 2.
Proof.
  pose proof (init_creates_tables_once (E:=demo) demo_dsn demo_metadata fresh
                demo_dsn (or_intror (conj eq_refl eq_refl))) as H.
  destruct H as (_ & _ & _ & H4 & _ & H6).
  split; [exact H4 | exact (proj1 (H6 demo_dsn demo_metadata))].
Defined.

Lemma engine_cached_for_lifetime_witness :
  let w1 := snd (init (E:=demo) demo_dsn demo_metadata fresh) in
  let w2 := api_run [CallQuery select_one; CallClose; CallDropTables] w1 in
  let w3 := snd (init (E:=demo) demo_other_dsn demo_metadata w2) in
  _dsn (self w3) = Some demo_other_dsn /\
  _engine (self w3) = Some demo_dsn /\
  emitted w2 w3 = [EvCreateAll demo_metadata demo_dsn].
Proof.
  pose proof (engine_cached_for_lifetime (E:=demo) demo_dsn demo_metadata
                [CallQuery select_one; CallClose; CallDropTables]
                demo_other_dsn demo_metadata fresh demo_dsn
                eq_refl eq_refl) as H.
  cbv zeta in H.
  destruct H as (_ & _ & H3 & H4 & H5 & _).
  cbv zeta. repeat split; assumption.
Defined.



(** ** The further properties on the small environments *)

Lemma render_failure_stops_operation_witness :
  query_op flaky_uncompilable flaky_fresh =
  (Raise (External "CompileError"), flaky_fresh).
Proof.
  apply (render_failure_stops_operation flaky_uncompilable flaky_fresh).
  - intros s; discriminate.
  - reflexivity.
Defined.

Lemma failed_connect_is_retried_witness :
  fst (query_op flaky_select flaky_fresh) =
    Raise (External "ConnectionRefusedError") /\
  _pool (self (after flaky_select flaky_fresh)) = None /\
  _pool (self (after flaky_select (after flaky_select flaky_fresh))) = Some 0.
Proof.
  pose proof (failed_connect_is_retried flaky_select flaky_fresh "SELECT 1"
                (External "ConnectionRefusedError") 1
                eq_refl (or_introl eq_refl) eq_refl) as H.
  destruct H as (H1 & H2 & _ & _ & _ & H6).
  split; [exact H1 | split; [exact H2 |]].
  exact (proj1 (H6 flaky_select "SELECT 1" 2 2 (or_introl eq_refl) eq_refl)).
Defined.

Lemma in_service_preserved_witness :
  in_service (run_requests [select_failing; delete_42; select_failing] warm) 0.
Proof.
  exact (in_service_preserved [select_failing; delete_42; select_failing]
           warm 0 warm_in_service).
Defined.

Lemma connection_scopes_any_block_witness :
  fst (connection (E:=demo)
         (fun conn => conn_call Fetch conn "SELECT 1/0" [] None None) warm) =
    Raise (External "DivisionByZeroError") /\
  pools (snd (connection (E:=demo)
                (fun conn => conn_call Fetch conn "SELECT 1/0" [] None None)
                warm)) = pools warm.
Proof.
  pose proof (connection_scopes_any_block (E:=demo)
                (fun conn => conn_call Fetch conn "SELECT 1/0" [] None None)
                warm 0 warm_in_service) as H.
  destruct H as (H1 & H2 & _).
  split; [rewrite H1 | rewrite H2]; reflexivity.
Defined.

Lemma connection_refused_skips_block_witness :
  connection (E:=demo)
    (fun conn => conn_call Execute conn "DELETE FROM t" [] None None)
    (snd (close warm)) =
  (Raise InterfaceError, snd (close warm)).
Proof.
  apply (connection_refused_skips_block (E:=demo) _ (snd (close warm)) 0
           (mkPool (Some demo_dsn) 10 0 true)); reflexivity.
Defined.

Lemma connect_replaces_without_closing_witness :
  _pool (self (snd (_connect warm))) = Some 1 /\
  pools (snd (_connect warm)) !! 0 = Some (mkPool (Some demo_dsn) 10 10 false).
Proof.
  pose proof (connect_replaces_without_closing warm 0
                (mkPool (Some demo_dsn) 10 10 false) 10 1
                eq_refl eq_refl eq_refl) as H.
  destruct H as (_ & H2 & _ & H4 & _).
  split; [exact H2 | exact H4].
Defined.

Lemma reconnect_after_close_witness :
  in_service (snd (_connect (snd (close warm)))) 1 /\
  fst (query_op select_one (snd (_connect (snd (close warm))))) = Ok "SELECT 1".
Proof.
  pose proof (reconnect_after_close select_one warm 0 "SELECT 1" 9 1
                warm_in_service eq_refl (or_introl eq_refl)) as H.
  cbv zeta in H. destruct H as (_ & H2 & H3 & _).
  split; [exact H2 | rewrite H3; reflexivity].
Defined.

Lemma init_failure_keeps_bindings_witness :
  fst (init (E:=flaky) "not a url" ["bars"] flaky_fresh) =
    Raise (External "ArgumentError") /\
  _dsn (self (snd (init (E:=flaky) "not a url" ["bars"] flaky_fresh))) =
    Some "not a url" /\
  _metadata (self (snd (init (E:=flaky) "not a url" ["bars"] flaky_fresh))) =
    Some ["bars"].
Proof.
  pose proof (init_failure_keeps_bindings (E:=flaky) "not a url" ["bars"]
                flaky_fresh (External "ArgumentError") eq_refl) as H.
  destruct H as (H1 & H2 & _).
  split; [reflexivity | split; [exact H1 | exact H2]].
Defined.

Lemma engine_failure_not_cached_witness :
  _engine (self (snd (init (E:=flaky) demo_dsn ["bars"]
                        (snd (init (E:=flaky) "not a url" ["bars"]
                                flaky_fresh))))) =
  Some demo_dsn.
Proof.
  pose proof (engine_failure_not_cached (E:=flaky) "not a url" ["bars"]
                demo_dsn ["bars"] flaky_fresh (External "ArgumentError")
                demo_dsn eq_refl eq_refl eq_refl) as H.
  cbv zeta in H. destruct H as (_ & _ & _ & H4 & _). exact H4.
Defined.

Lemma ddl_failure_keeps_engine_witness :
  fst (create_tables (bound (E:=flaky) demo_dsn ["bars"; "locked"] flaky_fresh)) =
    Raise (External "OperationalError") /\
  _engine (self (snd (create_tables
                        (bound (E:=flaky) demo_dsn ["bars"; "locked"]
                           flaky_fresh)))) =
    Some demo_dsn.
Proof.
  pose proof (ddl_failure_keeps_engine (E:=flaky) Create
                (bound (E:=flaky) demo_dsn ["bars"; "locked"] flaky_fresh)
                ["bars"; "locked"] demo_dsn (External "OperationalError")
                eq_refl (or_intror (conj eq_refl eq_refl)) eq_refl) as H.
  destruct H as (H1 & H2 & _).
  split; [exact H1 | exact H2].
Defined.

Lemma close_leaves_schema_side_witness :
  emitted (snd (close warm)) (snd (drop_tables (snd (close warm)))) =
  [EvDropAll demo_metadata demo_dsn].
Proof.
  pose proof (close_leaves_schema_side warm demo_metadata demo_dsn
                eq_refl eq_refl) as H.
  cbv zeta in H. destruct H as (_ & _ & _ & H4). exact H4.
Defined.

Lemma fresh_tidy : tidy fresh.
Proof.
  split.
  - intros p po H. destruct p; discriminate H.
  - intros p H. discriminate H.
Defined.

Lemma no_connection_left_out_witness :
  tidy (api_run [CallInit demo_dsn demo_metadata; CallQuery select_failing;
                 CallQuery delete_42; CallClose; CallQuery select_one;
                 CallDropTables] fresh).
Proof.
  exact (no_connection_left_out _ fresh fresh_tidy).
Defined.

Lemma repr_is_latest_dsn_witness :
  __repr__ (self (api_run [CallQuery select_one; CallClose; CallDropTables]
                    (snd (init (E:=demo) demo_other_dsn demo_metadata warm)))) =
  Some demo_other_dsn.
Proof.
  exact (repr_is_latest_dsn (E:=demo) demo_other_dsn demo_metadata
           [CallQuery select_one; CallClose; CallDropTables] warm eq_refl).
Defined.

Lemma literal_processor_raises_witness :
  StringLiteral.literal_processor bytes_escaper strict_decode 4300
    (mkDialect "pyformat" true "ascii") (PyObj "2019-01-01") =
    Raise (External "UnicodeDecodeError") /\
  StringLiteral.literal_processor bytes_escaper strict_decode 4300
    (mkDialect "pyformat" true "utf-8") (PyBroken (External "ValueError")) =
    Raise (External "ValueError") /\
  StringLiteral.literal_processor bytes_escaper strict_decode 4300
    (mkDialect "pyformat" true "utf-8")
    (PyIntSub 42 (Raise (External "ValueError"))) =
    Raise (External "ValueError").
Proof.
  split; [| split].
  - apply (proj2 (literal_processor_raises bytes_escaper strict_decode 4300
                    (mkDialect "pyformat" true "ascii") (PyObj "2019-01-01")
                    (External "UnicodeDecodeError"))).
    right. split; [reflexivity|].
    exists "2019-01-01", (list_byte_of_string "2019-01-01").
    repeat split; reflexivity.
  - apply (proj2 (literal_processor_raises bytes_escaper strict_decode 4300
                    (mkDialect "pyformat" true "utf-8")
                    (PyBroken (External "ValueError"))
                    (External "ValueError"))).
    left. split; reflexivity.
  - apply (proj2 (literal_processor_raises bytes_escaper strict_decode 4300
                    (mkDialect "pyformat" true "utf-8")
                    (PyIntSub 42 (Raise (External "ValueError")))
                    (External "ValueError"))).
    left. split; reflexivity.
Defined.
